(** * doit-graph: the graph-construction algorithm of [doit_graph.py]

    A shallow embedding of [GraphCmd] (the node resolver [node], the edge
    accumulator [add_edge], the file-link annotator [get_connecting_files]
    and the breadth-first traversal and emission of [_execute]) together
    with the properties of the specification that concern them. *)

From Stdlib Require Import String Ascii List.
From stdpp Require Import base option list gmap sets strings sorting.

Set Warnings "-clear-no-such-hyp".

(** ** Outcomes

    Python exceptions are values; [OSError] stands for the error, of
    whichever subclass, that opening a file for writing raises.
    [OutOfFuel] is not a Python outcome: it is what the fuel-indexed
    [while] loop gives when its fuel is spent, and [_execute_terminates]
    shows that [_execute] never produces it. *)

Inductive exn : Type :=
| KeyError (key : string)
| TypeError
| OSError (path : string).

Inductive result (A : Type) : Type :=
| Ok (a : A)
| Raise (e : exn)
| OutOfFuel.

Arguments Ok {A} a.
Arguments Raise {A} e.
Arguments OutOfFuel {A}.

#[global] Instance result_ret : MRet result := fun A a => Ok a.

#[global] Instance result_bind : MBind result := fun A B k m =>
  match m with
  | Ok a => k a
  | Raise e => Raise e
  | OutOfFuel => OutOfFuel
  end.

(** ** The task registry

    One [Task] per entry of [control.tasks]; the fields are the attributes
    of doit's task objects that [doit_graph.py] reads.  [file_dep] and
    [targets] are [None] when the attribute is missing ([hasattr] false). *)

Record Task : Type := {
  name : string;
  has_subtask : bool;
  subtask_of : option string;
  setup_tasks : list string;
  task_dep : list string;
  file_dep : option (list string);
  targets : option (list string)
}.

(** [control.tasks]: the dict that doit's [TaskControl] fills with
    [tasks[task.name] = task] for the tasks of the task list, kept as its
    values in insertion order; the key of an entry is its [name], so
    [control.tasks.keys()] is the list of names and a lookup finds the
    entry of that name. *)
Definition registry : Type := list Task.

Fixpoint tasks_get (d : registry) (k : string) : option Task :=
  match d with
  | [] => None
  | t :: d' => if String.eqb (name t) k then Some t else tasks_get d' k
  end.

(** [d[k]] raises [KeyError] on a missing key. *)
Definition tasks_getitem (d : registry) (k : string) : result Task :=
  match tasks_get d k with
  | Some t => Ok t
  | None => Raise (KeyError k)
  end.

Definition keys (d : registry) : list string := map name d.

(** Truth value of an optional string: [None] and the empty string are
    false. *)
Definition truthy (o : option string) : bool :=
  match o with
  | Some s => negb (String.eqb s "")
  | None => false
  end.

(** [o or d] for an optional string [o]. *)
Definition or_else (o : option string) (d : string) : string :=
  match o with
  | Some s => if String.eqb s "" then d else s
  | None => d
  end.

(** ** The graph

    pygraphviz's [AGraph] is an external library and not part of the
    sources.  The graph is the aggregate of nodes (with their attributes)
    and edges (with arrowhead and optional label) of the data model, with
    the operations [_execute] calls on a graph created with
    [strict=False, directed=True]. *)

(** [attr_label] is the text of the label as it is read back from the
    edge, and [attr_label_html] tells whether the label is kept as an HTML
    string, which is written between angle brackets. *)
Record Edge : Type := {
  edge_source : string;
  edge_sink : string;
  attr_arrowhead : string;
  attr_label : option string;
  attr_label_html : bool
}.

Record Node : Type := {
  node_name : string;
  attr_peripheries : option string
}.

Record AGraph : Type := {
  graph_attr : list (string * string);
  node_attr : list (string * string);
  nodes : list Node;
  edges : list Edge
}.

(** [pygraphviz.AGraph(strict=False, directed=True)]. *)
Definition empty_graph : AGraph :=
  {| graph_attr := []; node_attr := []; nodes := []; edges := [] |}.

(** [g.node_attr[k] = v]. *)
Definition set_node_attr (k v : string) (g : AGraph) : AGraph :=
  {| graph_attr := graph_attr g; node_attr := node_attr g ++ [(k, v)];
     nodes := nodes g; edges := edges g |}.

(** [g.graph_attr.update(k=v)]. *)
Definition set_graph_attr (k v : string) (g : AGraph) : AGraph :=
  {| graph_attr := graph_attr g ++ [(k, v)]; node_attr := node_attr g;
     nodes := nodes g; edges := edges g |}.

(** [g.has_node(n)]. *)
Definition has_node (g : AGraph) (n : string) : bool :=
  existsb (fun x => String.eqb (node_name x) n) (nodes g).

(** The attributes given to [add_node] are set on the node [x] when it is
    the node [n]; the one attribute [_execute] passes is [peripheries]. *)
Definition update_node (n : string) (attrs : option string) (x : Node) : Node :=
  if String.eqb (node_name x) n
  then {| node_name := n;
          attr_peripheries :=
            match attrs with Some p => Some p | None => attr_peripheries x end |}
  else x.

(** Modelled from the spec: [AGraph.add_node] of pygraphviz, absent from
    the sources; adding a node that exists only updates its attributes. *)
Definition graph_add_node (g : AGraph) (n : string) (attrs : option string) : AGraph :=
  {| graph_attr := graph_attr g; node_attr := node_attr g;
     nodes := if has_node g n then map (update_node n attrs) (nodes g)
              else nodes g ++ [{| node_name := n; attr_peripheries := attrs |}];
     edges := edges g |}.

(** The last character of a string. *)
Fixpoint last_char (s : string) : option ascii :=
  match s with
  | EmptyString => None
  | String c EmptyString => Some c
  | String _ s' => last_char s'
  end.

(** A string without its last character. *)
Fixpoint drop_last (s : string) : string :=
  match s with
  | EmptyString => EmptyString
  | String _ EmptyString => EmptyString
  | String c s' => String c (drop_last s')
  end.

(** The rule of pygraphviz, which is absent from the sources and of which
    the specification says nothing, for a value given to the attribute
    [label] of an edge, by [add_edge] or by an assignment: a value of two
    characters or more whose first character is [<] and whose last
    character is [>] is kept as an HTML string, without the two
    brackets. *)
Definition html_like (val : string) : bool :=
  match val with
  | String c rest =>
      Ascii.eqb c "<"%char &&
      match last_char rest with
      | Some c' => Ascii.eqb c' ">"%char
      | None => false
      end
  | EmptyString => false
  end.

(** The text pygraphviz keeps for a value given to the attribute [label],
    and gives when the attribute is read. *)
Definition stored_label (val : string) : string :=
  match val with
  | String _ rest => if html_like val then drop_last rest else val
  | EmptyString => val
  end.

(** The edge from [u] to [v] with the arrowhead [a] and, when one is
    given, the label [l]. *)
Definition new_edge (u v : string) (a : string) (l : option string) : Edge :=
  {| edge_source := u; edge_sink := v; attr_arrowhead := a;
     attr_label := stored_label <$> l;
     attr_label_html := default false (html_like <$> l) |}.

(** Modelled from the spec: [AGraph.add_edge] of pygraphviz, absent from
    the sources; a graph that is not strict gets a new edge whether or not
    one exists, and the end points that are not nodes yet become nodes. *)
Definition graph_add_edge (g : AGraph) (u v : string) (a : string)
    (l : option string) : AGraph :=
  let g1 := if has_node g u then g else graph_add_node g u None in
  let g2 := if has_node g1 v then g1 else graph_add_node g1 v None in
  {| graph_attr := graph_attr g2; node_attr := node_attr g2;
     nodes := nodes g2;
     edges := edges g2 ++ [new_edge u v a l] |}.

(** The pair of end points of an edge. *)
Definition key_of (e : Edge) : string * string := (edge_source e, edge_sink e).

(** Whether [e] goes from [u] to [v]. *)
Definition joins (u v : string) (e : Edge) : bool :=
  String.eqb (edge_source e) u && String.eqb (edge_sink e) v.

(** The position of the first edge from [u] to [v]. *)
Fixpoint find_edge (es : list Edge) (u v : string) : option nat :=
  match es with
  | [] => None
  | e :: es' => if joins u v e then Some 0
                else S <$> find_edge es' u v
  end.

(** Modelled from the spec: [AGraph.get_edge] of pygraphviz, absent from
    the sources; the handle it returns is the position of the first edge
    from [u] to [v], and it raises [KeyError] when there is none. *)
Definition graph_get_edge (g : AGraph) (u v : string) : result nat :=
  match find_edge (edges g) u v with
  | Some i => Ok i
  | None => Raise (KeyError (u +:+ " -> " +:+ v))
  end.

(** [e.attr["label"] = l], with what pygraphviz keeps of [l]. *)
Definition set_label (l : string) (e : Edge) : Edge :=
  {| edge_source := edge_source e; edge_sink := edge_sink e;
     attr_arrowhead := attr_arrowhead e; attr_label := Some (stored_label l);
     attr_label_html := html_like l |}.

(** The graph [g] with [es] for its edges. *)
Definition with_edges (g : AGraph) (es : list Edge) : AGraph :=
  {| graph_attr := graph_attr g; node_attr := node_attr g; nodes := nodes g;
     edges := es |}.

(** An edge turned round, with its attributes. *)
Definition flip (e : Edge) : Edge :=
  {| edge_source := edge_sink e; edge_sink := edge_source e;
     attr_arrowhead := attr_arrowhead e; attr_label := attr_label e;
     attr_label_html := attr_label_html e |}.

(** Modelled from the spec: [AGraph.reverse] of pygraphviz, absent from the
    sources; a new graph with the same nodes and attributes in which every
    edge is turned round and keeps its own attributes. *)
Definition graph_reverse (g : AGraph) : AGraph :=
  with_edges g (map flip (edges g)).

(** ** GraphCmd *)

Record GraphCmd : Type := {
  tasks : registry;
  subtasks : bool;
  _edges : list (string * string);
  graph : AGraph
}.

(** The object with [g] for [self.graph]. *)
Definition with_graph (self : GraphCmd) (g : AGraph) : GraphCmd :=
  {| tasks := tasks self; subtasks := subtasks self; _edges := _edges self;
     graph := g |}.

(** [GraphCmd.node]. *)
Definition node (self : GraphCmd) (task_name : string) : result string :=
  if subtasks self then Ok task_name
  else
    task ← tasks_getitem (tasks self) task_name;
    Ok (or_else (subtask_of task) task_name).

(** The separator of [add_edge] and of ["\\n".join]: the two characters
    backslash and [n], the line break of a dot label. *)
Definition sep : string := "\n".

(** [existing_edge.attr.get("label", "")]: the text read back from the
    edge, which for an HTML label comes without its brackets, and the
    empty string when the edge has no label. *)
Definition existing_label (g : AGraph) (existing_edge : nat) : string :=
  default "" (e ← edges g !! existing_edge; attr_label e).

(** The [new_label] that [add_edge] computes. *)
Definition new_label (existing_label label : string) : string :=
  if negb (String.eqb existing_label "")
  then existing_label +:+ sep +:+ label
  else label.

(** [existing_edge.attr["label"] = l]. *)
Definition set_edge_label (g : AGraph) (existing_edge : nat) (l : string) : AGraph :=
  with_edges g (alter (set_label l) existing_edge (edges g)).

(** [GraphCmd.add_edge].  [_edges] is a Python set; it is kept as the list
    of its elements in the order they were added. *)
Definition add_edge (self : GraphCmd) (src_name sink_name : string)
    (arrowhead : string) (label : option string) : result GraphCmd :=
  source ← node self src_name;
  sink ← node self sink_name;
  if negb (String.eqb source sink) then
    let edge_key := (source, sink) in
    if bool_decide (edge_key ∈ _edges self) then
      if truthy label then
        existing_edge ← graph_get_edge (graph self) source sink;
        let existing_label := existing_label (graph self) existing_edge in
        let new_label := new_label existing_label (default "" label) in
        Ok (with_graph self
              (set_edge_label (graph self) existing_edge new_label))
      else Ok self
    else
      Ok {| tasks := tasks self; subtasks := subtasks self;
            _edges := _edges self ++ [edge_key];
            graph := graph_add_edge (graph self) source sink arrowhead
                       (if truthy label then label else None) |}
  else Ok self.

(** ** The file-link annotator *)

(** The pieces of a path between its slashes; [cur] is the piece being
    read. *)
Fixpoint components (cur : string) (p : string) : list string :=
  match p with
  | EmptyString => [cur]
  | String c p' =>
      if Ascii.eqb c "/"%char then cur :: components "" p'
      else components (cur +:+ String c "") p'
  end.

(** Modelled from the spec: [Path(p).name] of pathlib (POSIX flavour),
    absent from the sources; the final component of the path, where empty
    and ["."] components do not count, and the empty string when there is
    none. *)
Definition path_name (p : string) : string :=
  default "" (last (filter (λ c, c ≠ "" ∧ c ≠ ".") (components "" p))).

(** [{Path(str(f)).name for f in fs}] when the attribute is there and not
    empty, [set()] otherwise. *)
Definition basenames (fs : option (list string)) : gset string :=
  match fs with
  | Some (f :: fs') => list_to_set (path_name <$> f :: fs')
  | _ => ∅
  end.

(** [sorted] on strings: ascending by code point, which on the bytes of
    UTF-8 text is [String.le]. *)
Definition sorted (l : list string) : list string := merge_sort String.le l.

(** [GraphCmd.get_connecting_files].  A task object is a true value, so
    [not src_task] holds exactly when [tasks.get] gave [None]. *)
Definition get_connecting_files (self : GraphCmd)
    (src_task_name sink_task_name : string) : list string :=
  match tasks_get (tasks self) src_task_name,
        tasks_get (tasks self) sink_task_name with
  | Some src_task, Some sink_task =>
      let src_file_deps := basenames (file_dep src_task) in
      let sink_targets := basenames (targets sink_task) in
      let connecting_files := src_file_deps ∩ sink_targets in
      sorted (elements connecting_files)
  | _, _ => []
  end.

(** ** The traversal *)

(** [sep.join(l)]. *)
Fixpoint join (sep : string) (l : list string) : string :=
  match l with
  | [] => ""
  | [x] => x
  | x :: l' => x +:+ sep +:+ join sep l'
  end.

(** The variables of the [while] loop of [_execute].  [processed] is a
    Python set, kept as the list of its elements in the order they were
    added; [to_process] is the deque, front first. *)
Record Walk : Type := {
  cmd : GraphCmd;
  processed : list string;
  to_process : list string
}.

(** One of the two [for sink_name in ...] loops of [_execute]. *)
Fixpoint for_sinks (arrowhead : string) (task : Task) (sinks : list string)
    (w : Walk) : result Walk :=
  match sinks with
  | [] => Ok w
  | sink_name :: sinks' =>
      let connecting_files := get_connecting_files (cmd w) (name task) sink_name in
      let label :=
        match connecting_files with
        | [] => None
        | _ => Some (join sep connecting_files)
        end in
      self ← add_edge (cmd w) (name task) sink_name arrowhead label;
      for_sinks arrowhead task sinks'
        {| cmd := self; processed := processed w;
           to_process := if bool_decide (sink_name ∈ processed w)
                         then to_process w
                         else to_process w ++ [sink_name] |}
  end.

(** The body of the [while] loop, after [popleft] gave [key]. *)
Definition visit (key : string) (w : Walk) : result Walk :=
  task ← tasks_getitem (tasks (cmd w)) key;
  if bool_decide (name task ∈ processed w) then Ok w
  else
    let processed' := processed w ++ [name task] in
    let node_attrs := if has_subtask task then Some "2" else None in
    let self :=
      if negb (truthy (subtask_of task)) || subtasks (cmd w)
      then with_graph (cmd w) (graph_add_node (graph (cmd w)) (name task) node_attrs)
      else cmd w in
    w1 ← for_sinks "empty" task (setup_tasks task)
           {| cmd := self; processed := processed'; to_process := to_process w |};
    for_sinks "" task (task_dep task) w1.

(** [while to_process: ...], with fuel for the number of iterations. *)
Fixpoint while_to_process (fuel : nat) (w : Walk) : result Walk :=
  match to_process w with
  | [] => Ok w
  | key :: rest =>
      match fuel with
      | 0 => OutOfFuel
      | S fuel' =>
          w' ← visit key {| cmd := cmd w; processed := processed w;
                            to_process := rest |};
          while_to_process fuel' w'
      end
  end.

(** The number of dependencies of the registry entries that are not
    processed yet, and with it a bound on the iterations left. *)
Definition pending (d : registry) (processed : list string) : nat :=
  sum_list_with
    (λ t, if bool_decide (name t ∈ processed) then 0
          else length (setup_tasks t) + length (task_dep t)) d.

Definition budget (w : Walk) : nat :=
  length (to_process w) + pending (tasks (cmd w)) (processed w).

(** ** Emission *)

(** What a run leaves outside the object: the line it prints and the file
    it writes. *)
Record Emitted : Type := {
  printed : string;
  written_to : string;
  written : AGraph
}.

(** [outfile] after the [if not outfile:] block; [len(None)] raises
    [TypeError]. *)
Definition destination (outfile : option string)
    (pos_args : option (list string)) : result string :=
  if negb (truthy outfile) then
    match pos_args with
    | None => Raise TypeError
    | Some [a] => Ok (a +:+ ".dot")
    | Some _ => Ok ("tasks" +:+ ".dot")
    end
  else Ok (default "" outfile).

(** The part of [_execute] that populates the graph: the state of the
    object when the [while] loop is over.  [control_tasks] is
    [control.tasks], the registry doit's [TaskControl] builds. *)
Definition populate (control_tasks : registry) (subtasks horizontal : bool)
    (pos_args : option (list string)) : result Walk :=
  let g := set_node_attr "style" "filled"
             (set_node_attr "color" "lightblue2" empty_graph) in
  let g := if horizontal then set_graph_attr "rankdir" "LR" g else g in
  let self := {| tasks := control_tasks; subtasks := subtasks; _edges := [];
                 graph := g |} in
  let to_process :=
    match pos_args with
    | Some (a :: args) => a :: args
    | _ => keys control_tasks
    end in
  let w := {| cmd := self; processed := []; to_process := to_process |} in
  while_to_process (budget w) w.

(** What a call of [_execute] does: the lines it prints, and how it ends,
    with the object and what it wrote or with an exception. *)
Record Run : Type := {
  stdout : list string;
  outcome : result (GraphCmd * Emitted)
}.

(** Modelled from the spec: [AGraph.write(path)] of pygraphviz, absent from
    the sources; it opens [path] for writing, which raises an I/O error
    when the destination cannot be written, and writes the graph.
    [writable] tells which paths can be opened for writing. *)
Definition graph_write (writable : string → bool) (g : AGraph)
    (path : string) : result AGraph :=
  if writable path then Ok g else Raise (OSError path).

(** [GraphCmd._execute], on a file system where the paths of [writable]
    can be written.  The line is printed before the graph is written. *)
Definition _execute (writable : string → bool) (control_tasks : registry)
    (subtasks reverse horizontal : bool) (outfile : option string)
    (pos_args : option (list string)) : Run :=
  match (w ← populate control_tasks subtasks horizontal pos_args;
         outfile ← destination outfile pos_args;
         Ok (w, outfile)) with
  | Ok (w, outfile) =>
      let self := cmd w in
      let line := "Generated file: " +:+ outfile in
      let g := if reverse then graph_reverse (graph self) else graph self in
      {| stdout := [line];
         outcome :=
           g' ← graph_write writable g outfile;
           Ok (self, {| printed := line; written_to := outfile;
                        written := g' |}) |}
  | Raise e => {| stdout := []; outcome := Raise e |}
  | OutOfFuel => {| stdout := []; outcome := OutOfFuel |}
  end.

(** A file system on which every path can be written, and one on which
    none can. *)
Definition all_writable : string → bool := λ _, true.
Definition none_writable : string → bool := λ _, false.

(** ** Notions the properties are stated with *)

(** The label of an edge as it is written to the file: an HTML string
    goes between angle brackets. *)
Definition label_as_written (e : Edge) : option string :=
  (λ l, if attr_label_html e then "<" +:+ l +:+ ">" else l) <$> attr_label e.

(** The line feed character, as a string. *)
Definition newline : string := String (ascii_of_nat 10) "".

(** The number of edges from [u] to [v]. *)
Definition edges_between (g : AGraph) (u v : string) : nat :=
  length (filter (λ e, key_of e = (u, v)) (edges g)).

(** The seen-pairs set and the edges of the graph go together: the pairs
    are the end points of the edges, in the same order, no pair occurs
    twice and no edge joins a node to itself. *)
Record edges_ok (self : GraphCmd) : Prop := {
  seen_keys : _edges self = key_of <$> edges (graph self);
  seen_NoDup : NoDup (_edges self);
  no_loop : ∀ e, e ∈ edges (graph self) → edge_source e ≠ edge_sink e
}.

(** The names of the nodes of a graph, in the order they were added. *)
Definition node_names (g : AGraph) : list string := node_name <$> nodes g.

(** The nodes of the graph: no name occurs twice, every node is what the
    node resolver gives for some identity, and the end points of the edges
    are nodes. *)
Record nodes_ok (self : GraphCmd) : Prop := {
  names_NoDup : NoDup (node_names (graph self));
  names_resolved : ∀ n, n ∈ node_names (graph self) → ∃ x, node self x = Ok n;
  ends_are_nodes : ∀ e, e ∈ edges (graph self) →
    edge_source e ∈ node_names (graph self) ∧
    edge_sink e ∈ node_names (graph self)
}.

(** The dependencies the traversal follows from a task. *)
Definition deps (t : Task) : list string := setup_tasks t ++ task_dep t.

(** The identities the traversal can reach from its seeds. *)
Inductive reachable (d : registry) (seeds : list string) : string → Prop :=
| reachable_seed x : x ∈ seeds → reachable d seeds x
| reachable_dep x t y :
    reachable d seeds x → tasks_get d x = Some t → y ∈ deps t →
    reachable d seeds y.

(** The seeds of a run: the roots, or every key when there is none. *)
Definition seeds (d : registry) (pos_args : option (list string)) : list string :=
  match pos_args with
  | Some (a :: args) => a :: args
  | _ => keys d
  end.

(** The state of the breadth-first walk between two iterations: what is
    processed or queued can be reached, the seeds are processed or queued,
    the dependencies of a processed task are processed or queued, no
    identity was processed twice and what was processed is in the
    registry. *)
Record walk_ok (d : registry) (sd : list string) (w : Walk) : Prop := {
  walk_reachable : ∀ x, x ∈ processed w ++ to_process w → reachable d sd x;
  walk_seeds : ∀ x, x ∈ sd → x ∈ processed w ++ to_process w;
  walk_closed : ∀ x t y,
    x ∈ processed w → tasks_get d x = Some t → y ∈ deps t →
    y ∈ processed w ++ to_process w;
  walk_NoDup : NoDup (processed w);
  walk_tasks : ∀ x, x ∈ processed w → x ∈ keys d
}.

(** A task-level relationship of a processed task: [y] is a setup task
    or a task dependency of the processed task [x]. *)
Definition relationship (d : registry) (p : list string) (x y : string) : Prop :=
  x ∈ p ∧ ∃ t, tasks_get d x = Some t ∧ y ∈ deps t.

(** A task gets a node of its own when it is top-level or sub-tasks are
    shown. *)
Definition shown (self : GraphCmd) (x : string) : Prop :=
  ∃ t, tasks_get (tasks self) x = Some t ∧
       negb (truthy (subtask_of t)) || subtasks self = true.

(** What is drawn between two iterations: the recorded pairs are the
    resolved relationships of the processed tasks whose two ends differ,
    and every processed task that is shown has its node. *)
Record drawn_ok (w : Walk) : Prop := {
  drawn_edges : ∀ A B,
    (A, B) ∈ _edges (cmd w) ↔
    A ≠ B ∧ ∃ x y, relationship (tasks (cmd w)) (processed w) x y ∧
                   node (cmd w) x = Ok A ∧ node (cmd w) y = Ok B;
  drawn_nodes : ∀ x,
    x ∈ processed w → shown (cmd w) x → x ∈ node_names (graph (cmd w))
}.

(** A registry without dangling identities: the dependencies of its tasks
    are in it. *)
Definition consistent (d : registry) : Prop :=
  ∀ x t y, tasks_get d x = Some t → y ∈ deps t → y ∈ keys d.

(** A task of the registry is a sub-task when its [subtask_of] is a true
    value. *)
Definition is_subtask (d : registry) (x : string) : Prop :=
  ∃ t, tasks_get d x = Some t ∧ truthy (subtask_of t) = true.

(** Grouping has one level: the parent of a sub-task is not a sub-task. *)
Definition one_level (d : registry) : Prop :=
  ∀ x t, tasks_get d x = Some t → truthy (subtask_of t) = true →
         ¬ is_subtask d (or_else (subtask_of t) x).


(** ** Registries used as examples *)

Definition task (n : string) (parent : option string) (group : bool)
    (setup dep : list string) (inputs outputs : list string) : Task :=
  {| name := n; has_subtask := group; subtask_of := parent;
     setup_tasks := setup; task_dep := dep;
     file_dep := Some inputs; targets := Some outputs |}.

(** [A] depends on [B] and [C], which both depend on [D]. *)
Definition diamond : registry :=
  [ task "A" None false [] ["B"; "C"] [] [];
    task "B" None false [] ["D"] [] [];
    task "C" None false [] ["D"] [] [];
    task "D" None false [] [] [] [] ].

(** A group [pkg] with two sub-tasks that both depend on [gen], the first
    as a setup task and the second as a task dependency, and each reads a
    file that [gen] produces; the second also depends on the first. *)
Definition grouped : registry :=
  [ task "pkg" None true [] ["pkg:a"; "pkg:b"] [] [];
    task "pkg:a" (Some "pkg") false ["gen"] [] ["build/a.c"] [];
    task "pkg:b" (Some "pkg") false [] ["gen"; "pkg:a"] ["b.c"] [];
    task "gen" None false [] [] [] ["out/a.c"; "out/b.c"] ].

(** As [grouped], with files whose names begin with [<] and end with
    [>]. *)
Definition angled : registry :=
  [ task "pkg" None true [] ["pkg:a"; "pkg:b"] [] [];
    task "pkg:a" (Some "pkg") false ["gen"] [] ["<a>"] [];
    task "pkg:b" (Some "pkg") false [] ["gen"; "pkg:a"] ["<b>"] [];
    task "gen" None false [] [] [] ["<a>"; "<b>"] ].

(** A task that names the same task as a task dependency and as a setup
    task. *)
Definition both_kinds : registry :=
  [ task "a" None false ["b"] ["b"] [] [];
    task "b" None false [] [] [] [] ].

(** Two sub-tasks of [x] that depend on [g], the first as a task
    dependency and the second as a setup task. *)
Definition dep_then_setup : registry :=
  [ task "x:1" (Some "x") false [] ["g"] [] [];
    task "x:2" (Some "x") false ["g"] [] [] [];
    task "x" None true [] ["x:1"; "x:2"] [] [];
    task "g" None false [] [] [] [] ].

(** [A] reads files that [B] produces, under other directories and in
    another order. *)
Definition linked : registry :=
  [ task "A" None false [] ["B"] ["x/out.txt"; "z.c"; "lib/b.h"; "b.h"] [];
    task "B" None false [] [] [] ["w.o"; "y/out.txt"; "b.h"] ].

(** A task with a dependency that the registry does not have. *)
Definition dangling : registry :=
  [ task "a" None false [] ["ghost"] [] [] ].

(** A sub-task [s] whose parent [p] is itself a sub-task of [q]. *)
Definition nested : registry :=
  [ task "a" None false [] ["s"] [] [];
    task "s" (Some "p") false [] [] [] [];
    task "p" (Some "q") false [] [] [] [];
    task "q" None true [] [] [] [] ].

(** ** Notions the further properties are stated with *)

(** [e'] is the edge [e] with, at most, another label. *)
Definition same_but_label (e e' : Edge) : Prop :=
  key_of e' = key_of e ∧ attr_arrowhead e' = attr_arrowhead e.

(** A relationship of the kind that is drawn with the arrowhead [a]: [y]
    is a setup task of the processed task [x] for the arrowhead [empty],
    and a task dependency of [x] for the empty arrowhead. *)
Definition relationship_of (a : string) (d : registry) (p : list string)
    (x y : string) : Prop :=
  x ∈ p ∧ ∃ t, tasks_get d x = Some t ∧
               (a = "empty" ∧ y ∈ setup_tasks t ∨ a = "" ∧ y ∈ task_dep t).

(** Every edge stands for a relationship of its kind between tasks that
    resolve to its end points. *)
Definition arrows_ok (w : Walk) : Prop :=
  ∀ e, e ∈ edges (graph (cmd w)) →
    ∃ x y, relationship_of (attr_arrowhead e) (tasks (cmd w)) (processed w) x y ∧
           node (cmd w) x = Ok (edge_source e) ∧
           node (cmd w) y = Ok (edge_sink e).

(** No edge has the empty string for its label, unless as the text of an
    HTML string. *)
Definition labels_ok (self : GraphCmd) : Prop :=
  ∀ e, e ∈ edges (graph self) →
    attr_label e = Some "" → attr_label_html e = true.

(** [n] is an end point of an edge of [g]. *)
Definition end_point (g : AGraph) (n : string) : Prop :=
  ∃ e, e ∈ edges g ∧ (n = edge_source e ∨ n = edge_sink e).

(** The double border goes with the processed group tasks that are
    shown: a node has [peripheries] only as ["2"] and only when it is such
    a task, and the node of such a task has it. *)
Record borders_ok (w : Walk) : Prop := {
  border_task : ∀ nd p,
    nd ∈ nodes (graph (cmd w)) → attr_peripheries nd = Some p →
    p = "2" ∧ node_name nd ∈ processed w ∧
    ∃ t, tasks_get (tasks (cmd w)) (node_name nd) = Some t ∧
         has_subtask t = true ∧
         negb (truthy (subtask_of t)) || subtasks (cmd w) = true;
  border_group : ∀ nd t,
    nd ∈ nodes (graph (cmd w)) → node_name nd ∈ processed w →
    tasks_get (tasks (cmd w)) (node_name nd) = Some t →
    negb (truthy (subtask_of t)) || subtasks (cmd w) = true →
    has_subtask t = true → attr_peripheries nd = Some "2";
  border_plain : ∀ nd,
    nd ∈ nodes (graph (cmd w)) →
    (node_name nd ∈ processed w ∧ shown (cmd w) (node_name nd)) ∨
    end_point (graph (cmd w)) (node_name nd)
}.


(** A task that depends on a task and reads the file [<>] it produces. *)
Definition bare_brackets : registry :=
  [ task "a" None false [] ["b"] ["<>"] [];
    task "b" None false [] [] [] ["<>"] ].

(** Three tasks without dependencies. *)
Definition unconnected : registry :=
  [ task "x" None false [] [] [] [];
    task "y" None false [] [] [] [];
    task "z" None false [] [] [] [] ].

(** Every labelled edge stands for a relationship with connecting files
    between tasks that resolve to its end points. *)
Definition labels_linked (w : Walk) : Prop :=
  ∀ e, e ∈ edges (graph (cmd w)) → is_Some (attr_label e) →
    ∃ x y, relationship (tasks (cmd w)) (processed w) x y ∧
           node (cmd w) x = Ok (edge_source e) ∧
           node (cmd w) y = Ok (edge_sink e) ∧
           get_connecting_files (cmd w) x y ≠ [].

(** * Properties *)

(** ** The registry and the node resolver *)

Lemma tasks_get_name d k t : tasks_get d k = Some t → name t = k.
Proof.
  induction d as [|t' d IH]; simpl; [done|].
  destruct (String.eqb_spec (name t') k); [naive_solver|done].
Qed.

Lemma tasks_get_elem_of d k t : tasks_get d k = Some t → t ∈ d.
Proof.
  induction d as [|t' d IH]; simpl; [done|].
  destruct (String.eqb (name t') k); [|set_solver].
  intros [= ->]. left.
Qed.

Lemma tasks_get_None d k : tasks_get d k = None ↔ k ∉ keys d.
Proof.
  induction d as [|t' d IH]; simpl; [set_solver|].
  destruct (String.eqb_spec (name t') k); set_solver.
Qed.

Lemma tasks_get_is_Some d k : is_Some (tasks_get d k) ↔ k ∈ keys d.
Proof.
  rewrite <-not_eq_None_Some, tasks_get_None.
  destruct (decide (k ∈ keys d)); naive_solver.
Qed.

Lemma bind_Ok {A B} (m : result A) (k : A → result B) b :
  m ≫= k = Ok b ↔ ∃ a, m = Ok a ∧ k a = Ok b.
Proof. destruct m; simpl; naive_solver. Qed.

Lemma node_Ok self task_name n :
  node self task_name = Ok n ↔
  (subtasks self = true ∧ n = task_name) ∨
  (subtasks self = false ∧
   ∃ task, tasks_get (tasks self) task_name = Some task ∧
           n = or_else (subtask_of task) task_name).
Proof.
  unfold node, tasks_getitem. destruct (subtasks self); [naive_solver|].
  destruct (tasks_get _ _); simpl; naive_solver.
Qed.

Lemma node_Raise self task_name e :
  node self task_name = Raise e ↔
  subtasks self = false ∧ tasks_get (tasks self) task_name = None ∧
  e = KeyError task_name.
Proof.
  unfold node, tasks_getitem. destruct (subtasks self); [naive_solver|].
  destruct (tasks_get _ _); simpl; naive_solver.
Qed.

Lemma node_terminates self task_name : node self task_name ≠ OutOfFuel.
Proof.
  unfold node, tasks_getitem. destruct (subtasks self); [done|].
  by destruct (tasks_get _ _).
Qed.

(** C10: with sub-task display enabled the node resolver returns the
    identity it is given whatever the registry holds, also for an identity
    the registry does not have; the resolver fails only with sub-task
    display disabled, and then with the [KeyError] of an absent identity. *)
Theorem node_with_subtasks_never_fails :
  (∀ d d' seen seen' g g' task_name,
     node {| tasks := d; subtasks := true; _edges := seen; graph := g |} task_name
       = Ok task_name ∧
     node {| tasks := d; subtasks := true; _edges := seen; graph := g |} task_name
       = node {| tasks := d'; subtasks := true; _edges := seen'; graph := g' |}
           task_name) ∧
  (∀ self task_name,
     tasks_get (tasks self) task_name = None → subtasks self = true →
     node self task_name = Ok task_name) ∧
  (∀ self task_name e,
     node self task_name = Raise e →
     subtasks self = false ∧ tasks_get (tasks self) task_name = None ∧
     e = KeyError task_name).
Proof.
  split_and!.
  - done.
  - intros self task_name _ Hs. unfold node. by rewrite Hs.
  - intros self task_name e. by rewrite node_Raise.
Qed.

Lemma node_with_subtasks_never_fails_witness :
  node {| tasks := []; subtasks := true; _edges := []; graph := empty_graph |}
    "ghost" = Ok "ghost" ∧
  subtasks {| tasks := []; subtasks := false; _edges := []; graph := empty_graph |}
    = false.
Proof.
  split.
  - apply (proj1 (proj2 node_with_subtasks_never_fails)); reflexivity.
  - eapply (proj2 (proj2 node_with_subtasks_never_fails)) with (task_name := "ghost").
    reflexivity.
Defined.

(** ** Failures of the traversal *)

Lemma while_to_process_absent fuel w key rest :
  to_process w = key :: rest →
  tasks_get (tasks (cmd w)) key = None →
  while_to_process (S fuel) w = Raise (KeyError key).
Proof.
  intros Hq Hk. simpl. rewrite Hq. unfold visit, tasks_getitem. simpl.
  by rewrite Hk.
Qed.

Lemma while_to_process_raise fuel w key rest e :
  to_process w = key :: rest →
  visit key {| cmd := cmd w; processed := processed w; to_process := rest |}
    = Raise e →
  while_to_process (S fuel) w = Raise e.
Proof. intros Hq Hv. simpl. by rewrite Hq, Hv. Qed.

Lemma add_edge_raise self src_name sink_name arrowhead label e :
  node self src_name = Raise e ∨
  (∃ n, node self src_name = Ok n) ∧ node self sink_name = Raise e →
  add_edge self src_name sink_name arrowhead label = Raise e.
Proof.
  unfold add_edge. intros [->|[[n ->] ->]]; done.
Qed.

(** C8: an identity that is absent from the registry is fatal where it is
    dereferenced.  The traversal raises [KeyError] when the identity it
    pops is absent, the node resolver raises it for an absent identity when
    sub-task display is disabled, and nothing catches it: [add_edge],
    the loop and [_execute] end with the same [KeyError], before anything
    is printed and whatever can be written.  For a task
    with a dependency the registry does not have, the run fails at the pop
    when sub-tasks are shown and in the node resolver when they are
    not. *)
Theorem absent_identity_is_fatal :
  (∀ fuel w key rest,
     to_process w = key :: rest →
     tasks_get (tasks (cmd w)) key = None →
     while_to_process (S fuel) w = Raise (KeyError key)) ∧
  (∀ self task_name,
     subtasks self = false →
     tasks_get (tasks self) task_name = None →
     node self task_name = Raise (KeyError task_name)) ∧
  (∀ self src_name sink_name arrowhead label,
     subtasks self = false →
     tasks_get (tasks self) src_name = None ∨
     is_Some (tasks_get (tasks self) src_name) ∧
     tasks_get (tasks self) sink_name = None →
     ∃ key, add_edge self src_name sink_name arrowhead label
              = Raise (KeyError key) ∧
            tasks_get (tasks self) key = None) ∧
  (∀ fuel w key rest e,
     to_process w = key :: rest →
     visit key {| cmd := cmd w; processed := processed w; to_process := rest |}
       = Raise e →
     while_to_process (S fuel) w = Raise e) ∧
  (∀ writable d subtasks reverse horizontal outfile key args,
     tasks_get d key = None →
     _execute writable d subtasks reverse horizontal outfile
       (Some (key :: args))
       = {| stdout := []; outcome := Raise (KeyError key) |}) ∧
  (∀ writable,
     _execute writable dangling true false false None (Some ["a"])
       = {| stdout := []; outcome := Raise (KeyError "ghost") |}) ∧
  (∀ writable,
     _execute writable dangling false false false None (Some ["a"])
       = {| stdout := []; outcome := Raise (KeyError "ghost") |}).
Proof.
  split_and!.
  - apply while_to_process_absent.
  - intros self task_name Hs Hk. by apply node_Raise.
  - intros self src_name sink_name arrowhead label Hs [Hk|[[t Ht] Hk]].
    + exists src_name. split; [|done].
      apply add_edge_raise. left. by apply node_Raise.
    + exists sink_name. split; [|done].
      apply add_edge_raise. right. split; [|by apply node_Raise].
      eexists. apply node_Ok. right. eauto.
  - apply while_to_process_raise.
  - intros writable d st rv hz outfile key args Hk. unfold _execute, populate.
    unfold budget at 1. cbn [to_process length Nat.add].
    by erewrite while_to_process_absent.
  - intros writable. by vm_compute.
  - intros writable. by vm_compute.
Qed.

Lemma absent_identity_is_fatal_witness :
  node {| tasks := []; subtasks := false; _edges := []; graph := empty_graph |}
    "ghost" = Raise (KeyError "ghost") ∧
  _execute all_writable [] true false false None (Some ["ghost"])
    = {| stdout := []; outcome := Raise (KeyError "ghost") |}.
Proof.
  split.
  - apply (proj1 (proj2 absent_identity_is_fatal)); reflexivity.
  - apply (proj1 (proj2 (proj2 (proj2 (proj2 absent_identity_is_fatal))))).
    reflexivity.
Defined.

(** ** Emission *)

(** [_execute] case by case: on the traversal, on the destination and on
    whether the destination can be written. *)
Lemma _execute_unfold writable d st rv hz outfile pos_args :
  _execute writable d st rv hz outfile pos_args =
  match populate d st hz pos_args with
  | Ok w =>
      match destination outfile pos_args with
      | Ok dest =>
          {| stdout := ["Generated file: " +:+ dest];
             outcome :=
               if writable dest
               then Ok (cmd w,
                        {| printed := "Generated file: " +:+ dest;
                           written_to := dest;
                           written := if rv then graph_reverse (graph (cmd w))
                                      else graph (cmd w) |})
               else Raise (OSError dest) |}
      | Raise e => {| stdout := []; outcome := Raise e |}
      | OutOfFuel => {| stdout := []; outcome := OutOfFuel |}
      end
  | Raise e => {| stdout := []; outcome := Raise e |}
  | OutOfFuel => {| stdout := []; outcome := OutOfFuel |}
  end.
Proof.
  unfold _execute, graph_write.
  destruct (populate d st hz pos_args) as [w|e|]; simpl; [|done|done].
  destruct (destination outfile pos_args) as [dest|e|]; simpl; [|done|done].
  by destruct (writable dest).
Qed.

Lemma _execute_Ok writable d st rv hz outfile pos_args self out :
  outcome (_execute writable d st rv hz outfile pos_args) = Ok (self, out) ↔
  ∃ w dest,
    populate d st hz pos_args = Ok w ∧
    destination outfile pos_args = Ok dest ∧
    self = cmd w ∧
    out = {| printed := "Generated file: " +:+ dest; written_to := dest;
             written := if rv then graph_reverse (graph (cmd w))
                        else graph (cmd w) |} ∧
    writable dest = true.
Proof.
  rewrite _execute_unfold.
  destruct (populate d st hz pos_args) as [w|e|]; simpl;
    [|split; [done|by intros (? & ? & ? & _)]..].
  destruct (destination outfile pos_args) as [dest|e|]; simpl;
    [|split; [done|by intros (? & ? & _ & ? & _)]..].
  destruct (writable dest) eqn:Hwr; simpl; split.
  - intros [= <- <-]. by exists w, dest.
  - by intros (? & ? & [= <-] & [= <-] & -> & -> & _).
  - done.
  - intros (? & ? & _ & [= <-] & _ & _ & ?). congruence.
Qed.


Lemma flip_flip e : flip (flip e) = e.
Proof. by destruct e. Qed.

Lemma graph_reverse_involutive g : graph_reverse (graph_reverse g) = g.
Proof.
  destruct g as [ga na ns es]. unfold graph_reverse, with_edges. simpl.
  f_equal. rewrite <-list_fmap_compose.
  rewrite <-(list_fmap_id es) at 2. apply list_fmap_ext.
  intros _ e _. apply flip_flip.
Qed.

(** C6: with [reverse] set the graph that is written has, edge for edge,
    source and sink exchanged and the arrowhead and label kept, on the
    same nodes; the graph held by the object is the one a run without
    [reverse] builds and writes, so it was not changed; and reversing the
    written graph once more gives the accumulated graph back. *)
Theorem reverse_flips_every_edge :
  ∀ writable d subtasks horizontal outfile pos_args self out,
    outcome (_execute writable d subtasks true horizontal outfile pos_args)
      = Ok (self, out) →
    length (edges (written out)) = length (edges (graph self)) ∧
    (∀ i e, edges (graph self) !! i = Some e →
       ∃ e', edges (written out) !! i = Some e' ∧
             edge_source e' = edge_sink e ∧ edge_sink e' = edge_source e ∧
             attr_arrowhead e' = attr_arrowhead e ∧
             attr_label e' = attr_label e) ∧
    nodes (written out) = nodes (graph self) ∧
    (∃ out', outcome (_execute writable d subtasks false horizontal outfile
                        pos_args) = Ok (self, out') ∧
             written out' = graph self ∧ written_to out' = written_to out) ∧
    graph_reverse (written out) = graph self ∧
    edges (graph_reverse (written out)) = edges (graph self).
Proof.
  intros writable d st hz outfile pos_args self out H.
  apply _execute_Ok in H as (w & dest & Hw & Hd & -> & -> & Hwr).
  cbn [written written_to]. split_and!.
  - simpl. by rewrite length_fmap.
  - intros i e Hi. exists (flip e). simpl. by rewrite list_lookup_fmap, Hi.
  - done.
  - eexists. split; [apply _execute_Ok; by exists w, dest|done].
  - apply graph_reverse_involutive.
  - by rewrite graph_reverse_involutive.
Qed.

(** ** The edge accumulator *)

Lemma joins_key u v e : joins u v e = true ↔ key_of e = (u, v).
Proof.
  unfold joins, key_of. rewrite andb_true_iff, !String.eqb_eq. naive_solver.
Qed.

Lemma find_edge_Some es u v i :
  find_edge es u v = Some i → ∃ e, es !! i = Some e ∧ key_of e = (u, v).
Proof.
  revert i. induction es as [|e es IH]; intros i; simpl; [done|].
  destruct (joins u v e) eqn:E.
  - intros [= <-]. exists e. by apply joins_key in E.
  - destruct (find_edge es u v) as [j|]; [|done]. intros [= <-].
    destruct (IH j) as (e' & ? & ?); eauto.
Qed.

Lemma find_edge_is_Some es u v :
  (u, v) ∈ key_of <$> es → is_Some (find_edge es u v).
Proof.
  induction es as [|e es IH]; simpl; [by intros ?%elem_of_nil|].
  destruct (joins u v e) eqn:E; [by eexists|].
  intros [He|Hin]%elem_of_cons.
  - symmetry in He. apply joins_key in He. congruence.
  - destruct (IH Hin) as [j ->]. by eexists.
Qed.

(** The four ways [add_edge] can end without an exception. *)
Lemma add_edge_Ok self src_name sink_name arrowhead label self' :
  add_edge self src_name sink_name arrowhead label = Ok self' ↔
  ∃ source sink,
    node self src_name = Ok source ∧ node self sink_name = Ok sink ∧
    ((source = sink ∧ self' = self) ∨
     (source ≠ sink ∧ (source, sink) ∈ _edges self ∧ truthy label = false ∧
      self' = self) ∨
     (source ≠ sink ∧ (source, sink) ∈ _edges self ∧ truthy label = true ∧
      ∃ i, find_edge (edges (graph self)) source sink = Some i ∧
           self' = with_graph self
                     (set_edge_label (graph self) i
                        (new_label (existing_label (graph self) i)
                           (default "" label)))) ∨
     (source ≠ sink ∧ ((source, sink) ∉ _edges self) ∧
      self' = {| tasks := tasks self; subtasks := subtasks self;
                 _edges := _edges self ++ [(source, sink)];
                 graph := graph_add_edge (graph self) source sink arrowhead
                            (if truthy label then label else None) |})).
Proof.
  unfold add_edge. rewrite bind_Ok. setoid_rewrite bind_Ok.
  split.
  - intros (source & Hs & sink & Hk & H). exists source, sink.
    split; [done|]. split; [done|].
    destruct (String.eqb_spec source sink) as [->|Hne]; simpl in H.
    { left. naive_solver. }
    right. case_bool_decide as Hin.
    + destruct (truthy label) eqn:Hl; [|left; naive_solver].
      right. left. unfold graph_get_edge in H.
      destruct (find_edge _ _ _) as [i|] eqn:Hi; simpl in H; [|done].
      naive_solver.
    + right. right. naive_solver.
  - intros (source & sink & Hs & Hk & H). exists source. split; [done|].
    exists sink. split; [done|].
    destruct H as [[-> ->]|[(Hne & Hin & Hl & ->)|
      [(Hne & Hin & Hl & i & Hi & ->)|(Hne & Hin & ->)]]].
    + by rewrite String.eqb_refl.
    + apply String.eqb_neq in Hne. rewrite Hne. simpl.
      by rewrite bool_decide_eq_true_2, Hl.
    + apply String.eqb_neq in Hne. rewrite Hne. simpl.
      rewrite bool_decide_eq_true_2, Hl by done.
      unfold graph_get_edge. by rewrite Hi.
    + apply String.eqb_neq in Hne. rewrite Hne. simpl.
      by rewrite bool_decide_eq_false_2.
Qed.

Lemma add_edge_frame self src_name sink_name arrowhead label self' :
  add_edge self src_name sink_name arrowhead label = Ok self' →
  tasks self' = tasks self ∧ subtasks self' = subtasks self.
Proof.
  intros (source & sink & _ & _ & H)%add_edge_Ok.
  destruct H as [[_ ->]|[(_ & _ & _ & ->)|
    [(_ & _ & _ & i & _ & ->)|(_ & _ & ->)]]]; done.
Qed.

Lemma graph_add_edge_edges g u v a l :
  edges (graph_add_edge g u v a l) = edges g ++ [new_edge u v a l].
Proof.
  unfold graph_add_edge. simpl.
  destruct (has_node g u); simpl; destruct (has_node _ v); done.
Qed.

Lemma set_edge_label_keys g i l :
  key_of <$> edges (set_edge_label g i l) = key_of <$> edges g.
Proof.
  simpl. erewrite (list_fmap_alter key_of (set_label l) id).
  - apply list_eq. intros j. rewrite list_lookup_alter.
    case_decide; [subst|done]. by destruct (_ !! _).
  - by apply Forall_true.
Qed.

Lemma set_edge_label_arrowheads g i l :
  attr_arrowhead <$> edges (set_edge_label g i l) = attr_arrowhead <$> edges g.
Proof.
  simpl. erewrite (list_fmap_alter attr_arrowhead (set_label l) id).
  - apply list_eq. intros j. rewrite list_lookup_alter.
    case_decide; [subst|done]. by destruct (_ !! _).
  - by apply Forall_true.
Qed.

Lemma add_edge_edges_ok self src_name sink_name arrowhead label self' :
  edges_ok self →
  add_edge self src_name sink_name arrowhead label = Ok self' →
  edges_ok self'.
Proof.
  intros [Hk Hn Hl] (source & sink & _ & _ & H)%add_edge_Ok.
  destruct H as [[_ ->]|[(_ & _ & _ & ->)|
    [(Hne & Hin & _ & i & Hi & ->)|(Hne & Hin & ->)]]]; [done|done|..].
  - split.
    + cbn [_edges graph with_graph]. by rewrite set_edge_label_keys.
    + done.
    + cbn [graph with_graph]. intros e He.
      assert (key_of e ∈ key_of <$> edges (graph self)) as Hke.
      { rewrite <-(set_edge_label_keys _ i
          (new_label (existing_label (graph self) i) (default "" label))).
        by apply list_elem_of_fmap_2. }
      apply list_elem_of_fmap in Hke as (e0 & Hke & He0).
      apply Hl in He0. unfold key_of in Hke. congruence.
  - split; cbn [_edges graph].
    + rewrite graph_add_edge_edges, fmap_app, <-Hk. done.
    + apply NoDup_app. split; [done|]. split; [|apply NoDup_singleton].
      intros x Hx ->%list_elem_of_singleton. done.
    + rewrite graph_add_edge_edges. intros e [He| ->%list_elem_of_singleton]%elem_of_app.
      * by apply Hl.
      * done.
Qed.

(** ** The traversal: what a visit changes *)

Lemma for_sinks_Ok arrowhead task sinks w w' :
  for_sinks arrowhead task sinks w = Ok w' →
  tasks (cmd w') = tasks (cmd w) ∧ subtasks (cmd w') = subtasks (cmd w) ∧
  processed w' = processed w ∧
  to_process w' = to_process w ++ filter (λ x, x ∉ processed w) sinks.
Proof.
  revert w. induction sinks as [|sink_name sinks IH]; intros w; simpl.
  { intros [= <-]. by rewrite app_nil_r. }
  intros (self & Ha & Hr)%bind_Ok.
  apply add_edge_frame in Ha as [Ht Hs].
  apply IH in Hr as (Ht' & Hs' & Hp' & Hq'). simpl in *.
  split_and!; [congruence..|].
  rewrite Hq', filter_cons. case_bool_decide; case_decide; try done.
  by rewrite <-app_assoc.
Qed.

Lemma visit_Ok key w w' :
  visit key w = Ok w' →
  ∃ task,
    tasks_get (tasks (cmd w)) key = Some task ∧ name task = key ∧
    tasks (cmd w') = tasks (cmd w) ∧ subtasks (cmd w') = subtasks (cmd w) ∧
    ((key ∈ processed w ∧ w' = w) ∨
     ((key ∉ processed w) ∧
      processed w' = processed w ++ [key] ∧
      to_process w' =
        to_process w ++ filter (λ x, x ∉ processed w ++ [key]) (deps task))).
Proof.
  unfold visit, tasks_getitem. intros (task & Hg & H)%bind_Ok.
  destruct (tasks_get _ _) as [t|] eqn:Ht; simplify_eq/=.
  exists task. pose proof (tasks_get_name _ _ _ Ht) as Hn. rewrite Hn in H.
  split; [done|]. split; [done|].
  case_bool_decide as Hp; [naive_solver|].
  apply bind_Ok in H as (w1 & H1 & H2).
  apply for_sinks_Ok in H1 as (Ht1 & Hs1 & Hp1 & Hq1).
  apply for_sinks_Ok in H2 as (Ht2 & Hs2 & Hp2 & Hq2).
  simpl in *. split_and!.
  - rewrite Ht2, Ht1. by destruct (_ || _).
  - rewrite Hs2, Hs1. by destruct (_ || _).
  - right. split; [done|]. split; [congruence|].
    unfold deps. rewrite filter_app, app_assoc, <-Hq1, <-Hp1. done.
Qed.

Lemma add_edge_terminates self src_name sink_name arrowhead label :
  add_edge self src_name sink_name arrowhead label ≠ OutOfFuel.
Proof.
  unfold add_edge.
  pose proof (node_terminates self src_name).
  destruct (node self src_name) as [source| |]; simpl; [|done..].
  pose proof (node_terminates self sink_name).
  destruct (node self sink_name) as [sink| |]; simpl; [|done..].
  repeat case_match; try done.
  unfold graph_get_edge. by case_match.
Qed.

Lemma for_sinks_terminates arrowhead task sinks w :
  for_sinks arrowhead task sinks w ≠ OutOfFuel.
Proof.
  revert w. induction sinks as [|sink_name sinks IH]; intros w; simpl; [done|].
  match goal with |- context [add_edge ?a ?b ?c ?d ?e] =>
    pose proof (add_edge_terminates a b c d e);
    destruct (add_edge a b c d e) end; simpl; [apply IH|done..].
Qed.

Lemma visit_terminates key w : visit key w ≠ OutOfFuel.
Proof.
  unfold visit, tasks_getitem.
  destruct (tasks_get _ _) as [task|]; simpl; [|done].
  case_bool_decide; [done|].
  match goal with |- context [for_sinks ?a ?b ?c ?d] =>
    pose proof (for_sinks_terminates a b c d);
    destruct (for_sinks a b c d) end; simpl; [|done..].
  apply for_sinks_terminates.
Qed.

(** ** The traversal: termination *)

Lemma pending_mono d p x : pending d (p ++ [x]) ≤ pending d p.
Proof.
  induction d as [|t d IH]; simpl; [done|].
  repeat case_bool_decide; set_solver by lia.
Qed.

Lemma pending_processed d p t :
  t ∈ d → name t ∉ p →
  pending d (p ++ [name t]) + length (deps t) ≤ pending d p.
Proof.
  unfold deps. rewrite length_app.
  induction d as [|t' d IH]; [by intros ?%elem_of_nil|].
  intros [->|Hin]%elem_of_cons Hp; simpl.
  - pose proof (pending_mono d p (name t')).
    rewrite bool_decide_eq_true_2, bool_decide_eq_false_2 by set_solver. lia.
  - specialize (IH Hin Hp). repeat case_bool_decide; set_solver by lia.
Qed.

Lemma visit_budget key w w' : visit key w = Ok w' → budget w' ≤ budget w.
Proof.
  intros (task & Ht & Hn & Htasks & _ & H)%visit_Ok.
  destruct H as [[_ ->]|(Hp & Hp' & Hq')]; [done|].
  unfold budget. rewrite Htasks, Hp', Hq', length_app.
  pose proof (pending_processed (tasks (cmd w)) (processed w) task
                (tasks_get_elem_of _ _ _ Ht)) as Hle.
  rewrite Hn in Hle. specialize (Hle Hp).
  pose proof (length_filter (λ x, x ∉ processed w ++ [key]) (deps task)).
  lia.
Qed.

Lemma while_to_process_terminates fuel w :
  budget w ≤ fuel → while_to_process fuel w ≠ OutOfFuel.
Proof.
  revert w. induction fuel as [|fuel IH]; intros w Hb.
  - destruct w as [self p [|key rest]]; [done|].
    unfold budget in Hb. simpl in Hb. lia.
  - simpl. destruct (to_process w) as [|key rest] eqn:Hq; [done|].
    match goal with |- context [visit ?a ?b] =>
      pose proof (visit_terminates a b) as Hv;
      pose proof (visit_budget a b) as Hvb;
      destruct (visit a b) as [w'| |] end; simpl; [|done..].
    apply IH. specialize (Hvb w' eq_refl).
    unfold budget in *. rewrite Hq in Hb. simpl in *. lia.
Qed.

Lemma while_to_process_empties fuel w w' :
  while_to_process fuel w = Ok w' → to_process w' = [].
Proof.
  revert w. induction fuel as [|fuel IH]; intros w; simpl.
  - destruct (to_process w) eqn:Hq; [|done]. by intros [= <-].
  - destruct (to_process w) eqn:Hq; [by intros [= <-]|].
    intros (w1 & _ & H)%bind_Ok. eauto.
Qed.

Lemma populate_terminates d st hz pos_args :
  populate d st hz pos_args ≠ OutOfFuel.
Proof. unfold populate. by apply while_to_process_terminates. Qed.

Lemma _execute_terminates writable d st rv hz outfile pos_args :
  outcome (_execute writable d st rv hz outfile pos_args) ≠ OutOfFuel.
Proof.
  rewrite _execute_unfold. pose proof (populate_terminates d st hz pos_args).
  destruct (populate _ _ _ _); simpl; [|done|done].
  unfold destination. repeat case_match; done.
Qed.

(** ** The nodes of the graph *)

Lemma has_node_elem_of g n : has_node g n = true ↔ n ∈ node_names g.
Proof.
  unfold has_node, node_names. rewrite existsb_exists, list_elem_of_fmap.
  setoid_rewrite <-list_elem_of_In. setoid_rewrite String.eqb_eq. naive_solver.
Qed.

Lemma update_node_name n attrs x : node_name (update_node n attrs x) = node_name x.
Proof.
  unfold update_node. by destruct (String.eqb_spec (node_name x) n).
Qed.

Lemma graph_add_node_names g n attrs :
  node_names (graph_add_node g n attrs) =
  if has_node g n then node_names g else node_names g ++ [n].
Proof.
  unfold node_names, graph_add_node. simpl. destruct (has_node g n).
  - rewrite <-list_fmap_compose. apply list_fmap_ext.
    intros _ x _. apply update_node_name.
  - by rewrite fmap_app.
Qed.

Lemma graph_add_node_elem_of g n attrs x :
  x ∈ node_names (graph_add_node g n attrs) ↔ x ∈ node_names g ∨ x = n.
Proof.
  rewrite graph_add_node_names. destruct (has_node g n) eqn:E.
  - apply has_node_elem_of in E. naive_solver.
  - set_solver.
Qed.

Lemma graph_add_node_NoDup g n attrs :
  NoDup (node_names g) → NoDup (node_names (graph_add_node g n attrs)).
Proof.
  rewrite graph_add_node_names. destruct (has_node g n) eqn:E; [done|].
  intros Hnd. apply NoDup_app. split; [done|]. split; [|apply NoDup_singleton].
  intros x Hx ->%list_elem_of_singleton.
  apply has_node_elem_of in Hx. congruence.
Qed.

Lemma graph_add_edge_elem_of g u v a l x :
  x ∈ node_names (graph_add_edge g u v a l) ↔ x ∈ node_names g ∨ x = u ∨ x = v.
Proof.
  unfold graph_add_edge. cbn [node_names nodes].
  change (x ∈ node_names
    (if has_node (if has_node g u then g else graph_add_node g u None) v
     then if has_node g u then g else graph_add_node g u None
     else graph_add_node (if has_node g u then g else graph_add_node g u None)
            v None) ↔ x ∈ node_names g ∨ x = u ∨ x = v).
  destruct (has_node g u) eqn:Eu.
  - apply has_node_elem_of in Eu. destruct (has_node g v) eqn:Ev.
    + apply has_node_elem_of in Ev. naive_solver.
    + rewrite graph_add_node_elem_of. naive_solver.
  - destruct (has_node (graph_add_node g u None) v) eqn:Ev.
    + apply has_node_elem_of, graph_add_node_elem_of in Ev.
      rewrite graph_add_node_elem_of. naive_solver.
    + rewrite !graph_add_node_elem_of. naive_solver.
Qed.

Lemma graph_add_edge_NoDup g u v a l :
  NoDup (node_names g) → NoDup (node_names (graph_add_edge g u v a l)).
Proof.
  intros Hnd. unfold graph_add_edge. cbn [node_names nodes].
  change (NoDup (node_names
    (if has_node (if has_node g u then g else graph_add_node g u None) v
     then if has_node g u then g else graph_add_node g u None
     else graph_add_node (if has_node g u then g else graph_add_node g u None)
            v None))).
  destruct (has_node g u); destruct (has_node _ v);
    auto using graph_add_node_NoDup.
Qed.

Lemma node_ext self self' x :
  tasks self' = tasks self → subtasks self' = subtasks self →
  node self' x = node self x.
Proof. unfold node. by intros -> ->. Qed.

Lemma add_edge_nodes_ok self src_name sink_name arrowhead label self' :
  nodes_ok self →
  add_edge self src_name sink_name arrowhead label = Ok self' →
  nodes_ok self'.
Proof.
  intros [Hnd Hres Hends] (source & sink & Hs & Hk & H)%add_edge_Ok.
  destruct H as [[_ ->]|[(_ & _ & _ & ->)|
    [(Hne & Hin & _ & i & Hi & ->)|(Hne & Hin & ->)]]]; [done|done|..].
  - split; [done|done|]. cbn [graph with_graph]. intros e He.
    change (node_names (set_edge_label (graph self) i _))
      with (node_names (graph self)).
    apply list_elem_of_lookup in He as [j Hj]. simpl in Hj.
    rewrite list_lookup_alter in Hj. case_decide; [subst j|].
    + destruct (edges (graph self) !! i) as [e0|] eqn:He0; simplify_eq/=.
      apply Hends. by eapply list_elem_of_lookup_2.
    + apply Hends. by eapply list_elem_of_lookup_2.
  - split; cbn [graph].
    + by apply graph_add_edge_NoDup.
    + intros n [Hn|[->| ->]]%graph_add_edge_elem_of.
      * destruct (Hres n Hn) as [x Hx]. exists x. by rewrite <-Hx.
      * exists src_name. by rewrite <-Hs.
      * exists sink_name. by rewrite <-Hk.
    + intros e. rewrite graph_add_edge_edges, elem_of_app, list_elem_of_singleton.
      rewrite !graph_add_edge_elem_of. intros [He| ->]; [|simpl; by auto].
      destruct (Hends e He). auto.
Qed.

(** ** What the traversal preserves *)

Section preservation.
Variable P : GraphCmd → Prop.

Hypothesis P_add_edge : ∀ self src_name sink_name arrowhead label self',
  P self →
  add_edge self src_name sink_name arrowhead label = Ok self' → P self'.

Hypothesis P_add_node : ∀ self task,
  P self →
  tasks_get (tasks self) (name task) = Some task →
  negb (truthy (subtask_of task)) || subtasks self = true →
  P (with_graph self
       (graph_add_node (graph self) (name task)
          (if has_subtask task then Some "2" else None))).

Lemma for_sinks_preserves arrowhead task sinks w w' :
  P (cmd w) → for_sinks arrowhead task sinks w = Ok w' → P (cmd w').
Proof using P_add_edge.
  revert w. induction sinks as [|sink_name sinks IH]; intros w HP; simpl.
  { by intros [= <-]. }
  intros (self & Ha & Hr)%bind_Ok. apply IH in Hr; [done|]. simpl. eauto.
Qed.

Lemma visit_preserves key w w' :
  P (cmd w) → visit key w = Ok w' → P (cmd w').
Proof using P_add_edge P_add_node.
  unfold visit, tasks_getitem. intros HP (task & Hg & H)%bind_Ok.
  destruct (tasks_get _ _) as [t|] eqn:Ht; simplify_eq/=.
  pose proof (tasks_get_name _ _ _ Ht) as Hn.
  case_bool_decide; [by simplify_eq|].
  apply bind_Ok in H as (w1 & H1 & H2).
  eapply for_sinks_preserves; [|done].
  eapply for_sinks_preserves; [|done]. simpl.
  destruct (_ || _) eqn:E; [|done].
  apply P_add_node; [done| |done]. by rewrite Hn.
Qed.

Lemma while_to_process_preserves fuel w w' :
  P (cmd w) → while_to_process fuel w = Ok w' → P (cmd w').
Proof using P_add_edge P_add_node.
  revert w. induction fuel as [|fuel IH]; intros w HP; simpl.
  - destruct (to_process w); [|done]. by intros [= <-].
  - destruct (to_process w) as [|key rest]; [by intros [= <-]|].
    intros (w1 & Hv & H)%bind_Ok. eapply IH; [|done].
    eapply visit_preserves; [|done]. done.
Qed.

Lemma populate_preserves d st hz pos_args w :
  (∀ g, edges g = [] → nodes g = [] →
        P {| tasks := d; subtasks := st; _edges := []; graph := g |}) →
  populate d st hz pos_args = Ok w → P (cmd w).
Proof using P_add_edge P_add_node.
  intros Hinit. unfold populate. apply while_to_process_preserves. simpl.
  apply Hinit; by destruct hz.
Qed.
End preservation.

Lemma populate_edges_ok d st hz pos_args w :
  populate d st hz pos_args = Ok w → edges_ok (cmd w).
Proof.
  apply populate_preserves.
  - apply add_edge_edges_ok.
  - by intros self task [].
  - intros g Hg _. split; simpl; rewrite ?Hg; [done|constructor|].
    by intros e ?%elem_of_nil.
Qed.

Lemma populate_nodes_ok d st hz pos_args w :
  populate d st hz pos_args = Ok w → nodes_ok (cmd w).
Proof.
  apply populate_preserves.
  - apply add_edge_nodes_ok.
  - intros self task [Hnd Hres Hends] Ht Hc. split; cbn [graph with_graph].
    + by apply graph_add_node_NoDup.
    + intros n [Hn| ->]%graph_add_node_elem_of.
      * destruct (Hres n Hn) as [x Hx]. by exists x.
      * exists (name task). apply node_Ok. cbn [subtasks tasks with_graph].
        destruct (subtasks self); [by left|right]. split; [done|].
        exists task. split; [done|].
        rewrite orb_false_r in Hc. unfold truthy, or_else in *.
        destruct (subtask_of task) as [s|]; [|done].
        by destruct (String.eqb s "").
    + intros e He. setoid_rewrite graph_add_node_elem_of.
      destruct (Hends e He). auto.
  - intros g Hg Hn. split; unfold node_names; simpl; rewrite ?Hg, ?Hn.
    + constructor.
    + by intros n ?%elem_of_nil.
    + by intros e ?%elem_of_nil.
Qed.

Lemma populate_frame d st hz pos_args w :
  populate d st hz pos_args = Ok w →
  tasks (cmd w) = d ∧ subtasks (cmd w) = st.
Proof.
  apply (populate_preserves (λ self, tasks self = d ∧ subtasks self = st)).
  - intros self ????? [<- <-] Ha. by apply add_edge_frame in Ha.
  - by intros self task [<- <-].
  - done.
Qed.

(** ** One edge for a pair of nodes *)

Lemma filter_key_nil (es : list Edge) k :
  k ∉ key_of <$> es → filter (λ e, key_of e = k) es = [].
Proof.
  induction es as [|e es IH]; [done|]. rewrite fmap_cons, not_elem_of_cons.
  intros [Hne Hk]. rewrite filter_cons. case_decide; [congruence|auto].
Qed.

Lemma NoDup_keys_between g u v :
  NoDup (key_of <$> edges g) → edges_between g u v ≤ 1.
Proof.
  unfold edges_between. induction (edges g) as [|e es IH]; [simpl; lia|].
  rewrite fmap_cons, NoDup_cons. intros [Hk Hnd]. rewrite filter_cons.
  case_decide as He; [|auto].
  rewrite filter_key_nil by congruence. simpl. lia.
Qed.

Lemma key_of_flip e u v : key_of (flip e) = (u, v) ↔ key_of e = (v, u).
Proof. unfold key_of. simpl. naive_solver. Qed.

Lemma edges_between_reverse g u v :
  edges_between (graph_reverse g) u v = edges_between g v u.
Proof.
  unfold edges_between, graph_reverse. simpl.
  induction (edges g) as [|e es IH]; [done|].
  rewrite fmap_cons, !filter_cons.
  pose proof (key_of_flip e u v).
  repeat case_decide; simpl; try tauto; first [exact IH | f_equal; exact IH].
Qed.

Lemma edges_ok_between self u v : edges_ok self → edges_between (graph self) u v ≤ 1.
Proof.
  intros [Hk Hnd _]. apply NoDup_keys_between. by rewrite <-Hk.
Qed.

(** C3: when the two identities given to [add_edge] resolve to the same
    node, the object is left as it was: no edge, no node and no seen pair
    is added; and in the graph a run builds, and in the one it writes, no
    edge has the same node at both ends. *)
Theorem self_loops_are_elided :
  (∀ self src_name sink_name arrowhead label n,
     node self src_name = Ok n → node self sink_name = Ok n →
     add_edge self src_name sink_name arrowhead label = Ok self) ∧
  (∀ writable d subtasks reverse horizontal outfile pos_args self out,
     outcome (_execute writable d subtasks reverse horizontal outfile pos_args)
       = Ok (self, out) →
     (∀ e, e ∈ edges (graph self) → edge_source e ≠ edge_sink e) ∧
     (∀ e, e ∈ edges (written out) → edge_source e ≠ edge_sink e) ∧
     (∀ n, (n, n) ∉ _edges self)).
Proof.
  split.
  - intros self src_name sink_name arrowhead label n Hs Hk.
    apply add_edge_Ok. exists n, n. auto.
  - intros writable d st rv hz outfile pos_args self out H.
    apply _execute_Ok in H as (w & dest & Hw & _ & -> & -> & _).
    destruct (populate_edges_ok _ _ _ _ _ Hw) as [Hk Hnd Hl].
    split_and!.
    + done.
    + cbn [written]. destruct rv; [|done]. simpl.
      intros e (e0 & -> & He0)%list_elem_of_fmap. simpl.
      apply Hl in He0. congruence.
    + intros n Hn. rewrite Hk in Hn.
      apply list_elem_of_fmap in Hn as (e & He & Hin).
      apply Hl in Hin. unfold key_of in He. congruence.
Qed.

Lemma self_loops_are_elided_witness :
  ∃ w,
    populate grouped false false (Some ["pkg:a"]) = Ok w ∧
    add_edge (cmd w) "pkg:b" "pkg:a" "" None = Ok (cmd w) ∧
    ∀ e, e ∈ edges (graph (cmd w)) → edge_source e ≠ edge_sink e.
Proof.
  eexists. split; [vm_compute; reflexivity|]. split.
  - apply (proj1 self_loops_are_elided) with (n := "pkg"); reflexivity.
  - eapply (proj2 self_loops_are_elided all_writable grouped false false false
              None (Some ["pkg:a"])).
    vm_compute. reflexivity.
Defined.

(** ** The label that is kept *)

Lemma last_char_app s t : t ≠ "" → last_char (s +:+ t) = last_char t.
Proof.
  intros Ht. induction s as [|c s IH]; [done|].
  assert (s +:+ t ≠ "") as Hne by (destruct s; [exact Ht|done]).
  simpl. rewrite IH. by destruct (s +:+ t).
Qed.

Lemma last_char_Some s c :
  last_char s = Some c → s = drop_last s +:+ String c "".
Proof.
  induction s as [|c' s IH]; [done|].
  destruct s as [|c'' s]; [by intros [= ->]|].
  intros H. change (last_char (String c'' s) = Some c) in H.
  apply IH in H.
  change (drop_last (String c' (String c'' s)))
    with (String c' (drop_last (String c'' s))).
  change (String c' (String c'' s) =
          String c' (drop_last (String c'' s) +:+ String c "")).
  by f_equal.
Qed.

Lemma html_like_last s : html_like s = true → last_char s = Some ">"%char.
Proof.
  destruct s as [|c rest]; [done|]. simpl.
  intros [_ H]%andb_true_iff.
  destruct (last_char rest) as [c'|] eqn:E; [|done].
  apply Ascii.eqb_eq in H as ->. by destruct rest.
Qed.

(** A value that is not of the form of an HTML label is kept as it is. *)
Lemma stored_label_plain s : html_like s = false → stored_label s = s.
Proof. unfold stored_label. destruct s; [done|]. by intros ->. Qed.

(** A value of the form of an HTML label is kept without its brackets, and
    written with them it is the value again. *)
Lemma stored_label_html s :
  html_like s = true → s = "<" +:+ stored_label s +:+ ">".
Proof.
  unfold stored_label. destruct s as [|c rest]; [done|]. intros H. rewrite H.
  simpl in H. apply andb_true_iff in H as [Hc H].
  apply Ascii.eqb_eq in Hc as ->.
  destruct (last_char rest) as [c'|] eqn:E; [|done].
  apply Ascii.eqb_eq in H as ->.
  apply last_char_Some in E.
  change (String "<" rest = String "<" (drop_last rest +:+ ">")).
  by f_equal.
Qed.

Lemma not_html_like_last s : last_char s ≠ Some ">"%char → html_like s = false.
Proof.
  intros H. destruct (html_like s) eqn:E; [|done].
  by apply html_like_last in E.
Qed.

(** A value that is not empty is kept as the empty text only as an HTML
    string. *)
Lemma stored_label_empty s : s ≠ "" → stored_label s = "" → html_like s = true.
Proof.
  intros Hs H. destruct (html_like s) eqn:E; [done|].
  rewrite stored_label_plain in H by done. congruence.
Qed.

(** A label that does not end with [>] stays as it is when it is appended
    to what was read back. *)
Lemma new_label_plain old l :
  l ≠ "" → last_char l ≠ Some ">"%char →
  html_like (new_label old l) = false.
Proof.
  intros Hl Hlast. apply not_html_like_last. unfold new_label.
  destruct (negb (String.eqb old "")); [|done].
  rewrite !last_char_app; [done|done|]. unfold sep. by destruct l.
Qed.


(** ** Merging onto a recorded pair *)

Lemma add_edge_seen_pair self src_name sink_name arrowhead label source sink self' :
  node self src_name = Ok source → node self sink_name = Ok sink →
  (source, sink) ∈ _edges self →
  add_edge self src_name sink_name arrowhead label = Ok self' →
  self' = self ∨
  truthy label = true ∧
  ∃ i, find_edge (edges (graph self)) source sink = Some i ∧
       self' = with_graph self
                 (set_edge_label (graph self) i
                    (new_label (existing_label (graph self) i)
                       (default "" label))).
Proof.
  intros Hs Hk Hin (source' & sink' & Hs' & Hk' & H)%add_edge_Ok.
  rewrite Hs in Hs'. rewrite Hk in Hk'. simplify_eq.
  destruct H as [[_ ->]|[(_ & _ & _ & ->)|
    [(Hne & _ & Hl & i & Hi & ->)|(Hne & Hin' & ->)]]]; eauto.
  done.
Qed.

(** C9: when the resolved pair is already recorded, [add_edge] leaves the
    seen pairs, the nodes and, edge for edge, the end points and the
    arrowhead as they were; the one thing that can change is the label of
    the edge of that pair, which becomes the old label extended by the new
    one, as pygraphviz keeps it.  So when a setup-task and a task-dep
    relationship fall on one pair, the edge keeps the arrowhead of the first
    of them: [empty] when the setup task came first, the solid one when the
    task dependency did. *)
Theorem merging_keeps_the_first_arrowhead :
  (∀ self src_name sink_name arrowhead label source sink self',
     node self src_name = Ok source → node self sink_name = Ok sink →
     (source, sink) ∈ _edges self →
     add_edge self src_name sink_name arrowhead label = Ok self' →
     _edges self' = _edges self ∧
     nodes (graph self') = nodes (graph self) ∧
     attr_arrowhead <$> edges (graph self') = attr_arrowhead <$> edges (graph self) ∧
     key_of <$> edges (graph self') = key_of <$> edges (graph self) ∧
     ∀ i e', edges (graph self') !! i = Some e' →
       ∃ e, edges (graph self) !! i = Some e ∧
            edge_source e' = edge_source e ∧ edge_sink e' = edge_sink e ∧
            attr_arrowhead e' = attr_arrowhead e ∧
            (attr_label e' = attr_label e ∨
             key_of e = (source, sink) ∧
             ∃ l, label = Some l ∧ l ≠ "" ∧
                  attr_label e' =
                    Some (stored_label
                            (new_label (default "" (attr_label e)) l)))) ∧
  (∃ self out e,
     outcome (_execute all_writable both_kinds false false false None
                (Some ["a"])) = Ok (self, out) ∧
     edges (graph self) = [e] ∧ key_of e = ("a", "b") ∧
     attr_arrowhead e = "empty") ∧
  (∃ self out e,
     outcome (_execute all_writable dep_then_setup false false false None
                (Some [])) = Ok (self, out) ∧
     edges (graph self) = [e] ∧ key_of e = ("x", "g") ∧
     attr_arrowhead e = "").
Proof.
  split_and!.
  - intros self src_name sink_name arrowhead label source sink self' Hs Hk Hin Ha.
    destruct (add_edge_seen_pair _ _ _ _ _ _ _ _ Hs Hk Hin Ha)
      as [->|(Hl & i & Hi & ->)].
    { split_and!; try done. intros i e' He'. exists e'. split_and!; auto. }
    cbn [_edges graph with_graph].
    rewrite set_edge_label_arrowheads, set_edge_label_keys.
    split_and!; try done.
    intros j e'. simpl. rewrite list_lookup_alter.
    case_decide as Hj; [subst j|intros He'; exists e'; split_and!; by auto].
    apply find_edge_Some in Hi as (e & He & Hkey). rewrite He.
    intros [= <-]. exists e. split_and!; try done. right.
    split; [done|]. destruct label as [l|]; [|done]. simpl in Hl.
    exists l. split; [done|]. split.
    + intros ->. done.
    + simpl. unfold existing_label. by rewrite He.
  - eexists _, _, _. vm_compute. done.
  - eexists _, _, _. vm_compute. done.
Qed.

Lemma merging_keeps_the_first_arrowhead_witness :
  ∃ w self',
    populate grouped false false (Some ["pkg:a"]) = Ok w ∧
    add_edge (cmd w) "pkg:b" "gen" "" (Some "b.c") = Ok self' ∧
    attr_arrowhead <$> edges (graph self') = ["empty"].
Proof.
  eexists _, _. split; [vm_compute; reflexivity|].
  lazymatch goal with |- add_edge ?s _ _ _ _ = Ok _ ∧ _ => set (self := s) end.
  split; [vm_compute; reflexivity|].
  lazymatch goal with |- _ <$> edges (graph ?s') = _ => set (self' := s') end.
  assert (("pkg", "gen") ∈ _edges self) as Hin by (vm_compute; left).
  rewrite (proj1 (proj2 (proj2 (proj1 merging_keeps_the_first_arrowhead
    self "pkg:b" "gen" "" (Some "b.c") "pkg" "gen" self'
    eq_refl eq_refl Hin eq_refl)))).
  reflexivity.
Defined.

Lemma list_alter_insert {A} (f : A → A) (l : list A) i x :
  l !! i = Some x → alter f i l = <[i := f x]> l.
Proof.
  intros Hi. apply list_eq. intros j.
  rewrite list_lookup_alter, list_lookup_insert.
  pose proof (lookup_lt_Some _ _ _ Hi).
  repeat case_decide; subst; rewrite ?Hi; try done; try tauto.
Qed.

Lemma new_label_cases (old : option string) l :
  new_label (default "" old) l =
  match old with
  | Some o => if String.eqb o "" then l else o +:+ "\n" +:+ l
  | None => l
  end.
Proof.
  unfold new_label, sep. destruct old as [o|]; simpl; [|done].
  by destruct (String.eqb o "").
Qed.

(** The claim of C1 as the specification words it, with a line feed
    between the labels, fails: in the collapsed graph of [grouped] the
    edge from [pkg] to [gen] first carries the label [a.c], and when the
    second relationship adds [b.c] the label is not [a.c], a line feed,
    [b.c]. *)
Lemma label_separator_is_not_a_line_feed :
  ∃ w self' e e',
    populate grouped false false (Some ["pkg:a"]) = Ok w ∧
    edges (graph (cmd w)) = [e] ∧ key_of e = ("pkg", "gen") ∧
    attr_label e = Some "a.c" ∧
    add_edge (cmd w) "pkg:b" "gen" "" (Some "b.c") = Ok self' ∧
    edges (graph self') = [e'] ∧
    attr_label e' ≠ Some ("a.c" +:+ newline +:+ "b.c").
Proof.
  eexists _, _, _, _. split; [vm_compute; reflexivity|].
  split; [vm_compute; reflexivity|]. split; [reflexivity|].
  split; [reflexivity|]. split; [vm_compute; reflexivity|].
  split; [vm_compute; reflexivity|]. vm_compute. discriminate.
Qed.

(** The label given to an edge is the label the edge is written with. *)
Lemma label_as_written_set_label text e :
  label_as_written (set_label text e) = Some text.
Proof.
  unfold label_as_written, set_label. cbn [attr_label attr_label_html fmap
    option_fmap option_map]. f_equal.
  destruct (html_like text) eqn:E.
  - symmetry. by apply stored_label_html.
  - by apply stored_label_plain.
Qed.

(** C1, amended: after a run there is at most one edge for each pair of
    nodes, in the graph held and in the graph written, however many
    relationships fall on the pair.  When a relationship falls on a
    recorded pair and brings a label that is not empty, the edge of the
    pair is given a new label and nothing else changes: that label if no
    text is read back from the edge, and otherwise the text read back, the
    two characters backslash and [n] (the line break of a dot label), and
    that label.  The edge is written with the label it is given.  The
    text read back from it is the label it is given, unless that begins
    with [<] and ends with [>]: pygraphviz keeps such a label as an HTML
    string and reads it back without the two brackets.  A label given on
    a recorded pair is kept as it is when the new label does not end with
    [>], so such labels accumulate in the order the relationships are
    met, as [a.c] and [b.c] do; with the files [<a>] and [<b>] the first
    label is read back as [a] and the edge ends with the label [a],
    backslash, [n], [<b>]. *)
Theorem one_edge_per_pair_with_accumulated_label :
  (∀ writable d subtasks reverse horizontal outfile pos_args self out,
     outcome (_execute writable d subtasks reverse horizontal outfile pos_args)
       = Ok (self, out) →
     edges_ok self ∧
     ∀ A B, edges_between (graph self) A B ≤ 1 ∧
            edges_between (written out) A B ≤ 1) ∧
  (∀ self src_name sink_name arrowhead l source sink,
     edges_ok self →
     node self src_name = Ok source → node self sink_name = Ok sink →
     (source, sink) ∈ _edges self → l ≠ "" →
     ∃ i e self' text,
       add_edge self src_name sink_name arrowhead (Some l) = Ok self' ∧
       edges_ok self' ∧
       find_edge (edges (graph self)) source sink = Some i ∧
       edges (graph self) !! i = Some e ∧ key_of e = (source, sink) ∧
       text = match attr_label e with
              | Some old => if String.eqb old "" then l
                            else old +:+ "\n" +:+ l
              | None => l
              end ∧
       edges (graph self') = <[i := set_label text e]> (edges (graph self)) ∧
       label_as_written (set_label text e) = Some text ∧
       attr_label (set_label text e) = Some (stored_label text) ∧
       (html_like text = false → stored_label text = text) ∧
       (html_like text = true →
        text = "<" +:+ stored_label text +:+ ">") ∧
       (last_char l ≠ Some ">"%char → html_like text = false) ∧
       _edges self' = _edges self ∧ nodes (graph self') = nodes (graph self)) ∧
  (∃ self out e,
     outcome (_execute all_writable grouped false false false None (Some []))
       = Ok (self, out) ∧
     edges (graph self) = [e] ∧ key_of e = ("pkg", "gen") ∧
     attr_label e = Some "a.c\nb.c" ∧ label_as_written e = Some "a.c\nb.c") ∧
  (∃ w self' e e',
     populate angled false false (Some ["pkg:a"]) = Ok w ∧
     edges (graph (cmd w)) = [e] ∧ key_of e = ("pkg", "gen") ∧
     attr_label e = Some "a" ∧ label_as_written e = Some "<a>" ∧
     add_edge (cmd w) "pkg:b" "gen" "" (Some "<b>") = Ok self' ∧
     edges (graph self') = [e'] ∧
     attr_label e' = Some "a\n<b>" ∧ label_as_written e' = Some "a\n<b>") ∧
  (∃ self out e,
     outcome (_execute all_writable angled false false false None (Some []))
       = Ok (self, out) ∧
     edges (graph self) = [e] ∧ key_of e = ("pkg", "gen") ∧
     attr_label e = Some "a\n<b>" ∧ label_as_written e = Some "a\n<b>").
Proof.
  split_and!.
  - intros writable d st rv hz outfile pos_args self out H.
    apply _execute_Ok in H as (w & dest & Hw & _ & -> & -> & _).
    pose proof (populate_edges_ok _ _ _ _ _ Hw) as Hok.
    split; [done|]. intros A B. split; [by apply edges_ok_between|].
    cbn [written]. destruct rv; [|by apply edges_ok_between].
    rewrite edges_between_reverse. by apply edges_ok_between.
  - intros self src_name sink_name arrowhead l source sink Hok Hs Hk Hin Hl.
    pose proof Hok as [Hkeys Hnd Hloop].
    assert (is_Some (find_edge (edges (graph self)) source sink)) as [i Hi].
    { apply find_edge_is_Some. by rewrite <-Hkeys. }
    pose proof (find_edge_Some _ _ _ _ Hi) as (e & He & Hkey).
    assert (source ≠ sink) as Hne.
    { apply list_elem_of_lookup_2, Hloop in He. unfold key_of in Hkey.
      congruence. }
    assert (truthy (Some l) = true) as Hl'.
    { simpl. by apply negb_true_iff, String.eqb_neq. }
    assert (add_edge self src_name sink_name arrowhead (Some l) =
            Ok (with_graph self
                  (set_edge_label (graph self) i
                     (new_label (existing_label (graph self) i) l)))) as Ha.
    { apply add_edge_Ok. exists source, sink. split; [done|]. split; [done|].
      right. right. left. eauto 10. }
    eexists i, e, _, _. split; [exact Ha|].
    split; [by eapply add_edge_edges_ok|].
    split; [done|]. split; [done|]. split; [done|]. split; [reflexivity|].
    rewrite <-new_label_cases.
    split_and!; try done.
    + simpl. unfold existing_label. rewrite He. simpl.
      by apply list_alter_insert.
    + apply label_as_written_set_label.
    + apply stored_label_plain.
    + apply stored_label_html.
    + intros Hlast. by apply new_label_plain.
  - eexists _, _, _. vm_compute. done.
  - eexists _, _, _, _. split; [vm_compute; reflexivity|].
    split; [vm_compute; reflexivity|]. split; [reflexivity|].
    split; [reflexivity|]. split; [reflexivity|].
    split; [vm_compute; reflexivity|].
    split; [vm_compute; reflexivity|]. split; reflexivity.
  - eexists _, _, _. vm_compute. done.
Qed.

Lemma one_edge_per_pair_with_accumulated_label_witness :
  ∃ self out,
    outcome (_execute all_writable grouped false false false None (Some []))
      = Ok (self, out) ∧
    edges_between (graph self) "pkg" "gen" ≤ 1.
Proof.
  eexists _, _. split; [vm_compute; reflexivity|].
  eapply (proj1 one_edge_per_pair_with_accumulated_label all_writable
            grouped false false false None (Some [])).
  vm_compute. reflexivity.
Defined.

(** ** The file-link annotator *)

Lemma basenames_list_to_set fs :
  basenames fs = list_to_set (path_name <$> default [] fs).
Proof. by destruct fs as [[|f fs]|]. Qed.

Lemma elem_of_basenames fs f :
  f ∈ basenames fs ↔ f ∈ path_name <$> default [] fs.
Proof. by rewrite basenames_list_to_set, elem_of_list_to_set. Qed.

Lemma basenames_same_files fs fs' :
  (∀ f, f ∈ default [] fs ↔ f ∈ default [] fs') → basenames fs = basenames fs'.
Proof.
  intros H. apply set_eq. intros f. rewrite !elem_of_basenames.
  rewrite !list_elem_of_fmap. naive_solver.
Qed.

Lemma elem_of_sorted l f : f ∈ sorted l ↔ f ∈ l.
Proof. unfold sorted. by rewrite merge_sort_Permutation. Qed.

Lemma sorted_StronglySorted l : StronglySorted String.le (sorted l).
Proof. apply (StronglySorted_merge_sort _). Qed.

Lemma sorted_NoDup l : NoDup l → NoDup (sorted l).
Proof. unfold sorted. by rewrite merge_sort_Permutation. Qed.

Lemma get_connecting_files_Some self src_name sink_name src_task sink_task :
  tasks_get (tasks self) src_name = Some src_task →
  tasks_get (tasks self) sink_name = Some sink_task →
  get_connecting_files self src_name sink_name =
  sorted (elements (basenames (file_dep src_task) ∩ basenames (targets sink_task))).
Proof. unfold get_connecting_files. by intros -> ->. Qed.

(** C4: for two tasks of the registry [get_connecting_files] gives the
    names that are the final component of a file dependency of the source
    and of a target of the sink, each once, in ascending order; the result
    is the same for any two registries in which the source has the same
    file dependencies and the sink the same targets, in whatever order and
    however often they are listed; and it is the empty list, not an
    exception, when one of the tasks is not in the registry or when the
    source has no file dependencies or the sink no targets. *)
Theorem connecting_files_is_sorted_intersection :
  (∀ self src_name sink_name src_task sink_task,
     tasks_get (tasks self) src_name = Some src_task →
     tasks_get (tasks self) sink_name = Some sink_task →
     (∀ f, f ∈ get_connecting_files self src_name sink_name ↔
           f ∈ path_name <$> default [] (file_dep src_task) ∧
           f ∈ path_name <$> default [] (targets sink_task)) ∧
     NoDup (get_connecting_files self src_name sink_name) ∧
     StronglySorted String.le (get_connecting_files self src_name sink_name)) ∧
  (∀ self self' src_name sink_name src_task sink_task src_task' sink_task',
     tasks_get (tasks self) src_name = Some src_task →
     tasks_get (tasks self) sink_name = Some sink_task →
     tasks_get (tasks self') src_name = Some src_task' →
     tasks_get (tasks self') sink_name = Some sink_task' →
     (∀ f, f ∈ default [] (file_dep src_task) ↔
           f ∈ default [] (file_dep src_task')) →
     (∀ f, f ∈ default [] (targets sink_task) ↔
           f ∈ default [] (targets sink_task')) →
     get_connecting_files self src_name sink_name =
     get_connecting_files self' src_name sink_name) ∧
  (∀ self src_name sink_name,
     tasks_get (tasks self) src_name = None ∨
     tasks_get (tasks self) sink_name = None →
     get_connecting_files self src_name sink_name = []) ∧
  (∀ self src_name sink_name src_task sink_task,
     tasks_get (tasks self) src_name = Some src_task →
     tasks_get (tasks self) sink_name = Some sink_task →
     default [] (file_dep src_task) = [] ∨ default [] (targets sink_task) = [] →
     get_connecting_files self src_name sink_name = []).
Proof.
  split_and!.
  - intros self src_name sink_name src_task sink_task Hs Hk.
    rewrite (get_connecting_files_Some _ _ _ _ _ Hs Hk). split_and!.
    + intros f. by rewrite elem_of_sorted, elem_of_elements,
        elem_of_intersection, !elem_of_basenames.
    + apply sorted_NoDup, NoDup_elements.
    + apply sorted_StronglySorted.
  - intros self self' src_name sink_name src_task sink_task src_task' sink_task'
      Hs Hk Hs' Hk' Hfd Htg.
    rewrite (get_connecting_files_Some _ _ _ _ _ Hs Hk),
      (get_connecting_files_Some _ _ _ _ _ Hs' Hk').
    by rewrite (basenames_same_files _ _ Hfd), (basenames_same_files _ _ Htg).
  - intros self src_name sink_name [H|H]; unfold get_connecting_files;
      rewrite H; [done|by case_match].
  - intros self src_name sink_name src_task sink_task Hs Hk H.
    rewrite (get_connecting_files_Some _ _ _ _ _ Hs Hk).
    rewrite !basenames_list_to_set.
    destruct H as [-> | ->]; simpl.
    + by rewrite intersection_empty_l_L, elements_empty.
    + by rewrite intersection_empty_r_L, elements_empty.
Qed.

(** The order of [sorted] is the lexicographic one on character codes. *)
Lemma string_le_nil s : String.le "" s.
Proof. by destruct s. Qed.

Lemma string_le_cons a s b t :
  String.le (String a s) (String b t) ↔
  (nat_of_ascii a < nat_of_ascii b)%nat ∨ a = b ∧ String.le s t.
Proof.
  unfold String.le, String.leb. simpl. unfold Ascii.compare.
  destruct (N.compare_spec (N_of_ascii a) (N_of_ascii b)) as [He|Hlt|Hgt].
  - apply (f_equal ascii_of_N) in He. rewrite !ascii_N_embedding in He.
    subst b. split; [by right|].
    intros [?|[_ ?]]; [lia|done].
  - split; [|done]. intros _. left. unfold nat_of_ascii. lia.
  - split; [done|]. unfold nat_of_ascii. intros [?|[-> _]]; lia.
Qed.

Lemma connecting_files_is_sorted_intersection_witness :
  get_connecting_files
    {| tasks := linked; subtasks := false; _edges := []; graph := empty_graph |}
    "A" "B" = ["b.h"; "out.txt"] ∧
  NoDup (get_connecting_files
    {| tasks := linked; subtasks := false; _edges := []; graph := empty_graph |}
    "A" "B").
Proof.
  split; [vm_compute; reflexivity|].
  eapply (proj1 connecting_files_is_sorted_intersection
            {| tasks := linked; subtasks := false; _edges := [];
               graph := empty_graph |} "A" "B"); reflexivity.
Defined.

(** ** The traversal: every reachable task once *)

Lemma visit_walk_ok d sd self p key rest w' :
  tasks self = d →
  walk_ok d sd {| cmd := self; processed := p; to_process := key :: rest |} →
  visit key {| cmd := self; processed := p; to_process := rest |} = Ok w' →
  walk_ok d sd w'.
Proof.
  intros Hd [Hr Hs Hc Hnd Ht] (task & Hg & Hn & _ & _ & H)%visit_Ok.
  simpl in *. subst d.
  destruct H as [[Hp ->]|(Hp & Hp' & Hq')].
  - split; simpl; [set_solver..|done|done].
  - assert (reachable (tasks self) sd key) as Hkey by set_solver.
    split; rewrite ?Hp', ?Hq'.
    + intros x. rewrite !elem_of_app, list_elem_of_filter.
      intros [[?| ->%list_elem_of_singleton]|[?|[_ ?]]]; [set_solver..|].
      by eapply reachable_dep.
    + intros x Hx. specialize (Hs x Hx). set_solver.
    + intros x t y [Hx| ->%list_elem_of_singleton]%elem_of_app Hgx Hy.
      * specialize (Hc x t y Hx Hgx Hy). set_solver.
      * assert (t = task) as -> by congruence.
        rewrite !elem_of_app, list_elem_of_filter.
        destruct (decide (y ∈ p ++ [key])); set_solver.
    + apply NoDup_app. split; [done|]. split; [|apply NoDup_singleton].
      set_solver.
    + intros x [Hx| ->%list_elem_of_singleton]%elem_of_app; [by auto|].
      apply tasks_get_is_Some. by eexists.
Qed.

Lemma while_to_process_walk_ok d sd fuel w w' :
  tasks (cmd w) = d → walk_ok d sd w →
  while_to_process fuel w = Ok w' → walk_ok d sd w'.
Proof.
  revert w. induction fuel as [|fuel IH]; intros w Hd Hok; simpl.
  - destruct (to_process w); [|done]. by intros [= <-].
  - destruct (to_process w) as [|key rest] eqn:Hq; [by intros [= <-]|].
    intros (w1 & Hv & H)%bind_Ok.
    apply (IH w1); [| |done].
    + apply visit_Ok in Hv as (_ & _ & _ & Ht & _). by rewrite Ht.
    + eapply visit_walk_ok; [exact Hd| |exact Hv].
      destruct w. simpl in *. by subst.
Qed.

Lemma populate_walk_ok d st hz pos_args w :
  populate d st hz pos_args = Ok w → walk_ok d (seeds d pos_args) w.
Proof.
  unfold populate. apply while_to_process_walk_ok; [done|].
  split; simpl.
  - intros x Hx. by apply reachable_seed.
  - done.
  - by intros x t y ?%elem_of_nil.
  - constructor.
  - by intros x ?%elem_of_nil.
Qed.

Lemma walk_ok_finished d sd w x :
  walk_ok d sd w → to_process w = [] →
  x ∈ processed w ↔ reachable d sd x.
Proof.
  intros [Hr Hs Hc Hnd Ht] Hq. rewrite Hq in *.
  setoid_rewrite app_nil_r in Hr. setoid_rewrite app_nil_r in Hs.
  setoid_rewrite app_nil_r in Hc.
  split; [by auto|]. induction 1; eauto.
Qed.

(** ** The traversal: what is drawn *)

Lemma add_edge_seen self src_name sink_name arrowhead label self' :
  add_edge self src_name sink_name arrowhead label = Ok self' →
  ∀ A B, (A, B) ∈ _edges self' ↔
         (A, B) ∈ _edges self ∨
         A ≠ B ∧ node self src_name = Ok A ∧ node self sink_name = Ok B.
Proof.
  intros (source & sink & Hs & Hk & H)%add_edge_Ok A B. rewrite Hs, Hk.
  destruct H as [[-> ->]|[(Hne & Hin & _ & ->)|
    [(Hne & Hin & _ & i & _ & ->)|(Hne & Hin & ->)]]]; simpl.
  - naive_solver.
  - naive_solver.
  - naive_solver.
  - rewrite elem_of_app, list_elem_of_singleton. naive_solver.
Qed.

Lemma add_edge_names self src_name sink_name arrowhead label self' :
  add_edge self src_name sink_name arrowhead label = Ok self' →
  ∀ n, n ∈ node_names (graph self) → n ∈ node_names (graph self').
Proof.
  intros (source & sink & Hs & Hk & H)%add_edge_Ok n Hn.
  destruct H as [[-> ->]|[(Hne & Hin & _ & ->)|
    [(Hne & Hin & _ & i & _ & ->)|(Hne & Hin & ->)]]]; try done.
  simpl. apply graph_add_edge_elem_of. by left.
Qed.

Lemma for_sinks_seen arrowhead task sinks w w' :
  for_sinks arrowhead task sinks w = Ok w' →
  ∀ A B, (A, B) ∈ _edges (cmd w') ↔
         (A, B) ∈ _edges (cmd w) ∨
         A ≠ B ∧ ∃ y, y ∈ sinks ∧ node (cmd w) (name task) = Ok A ∧
                      node (cmd w) y = Ok B.
Proof.
  revert w. induction sinks as [|sink_name sinks IH]; intros w; simpl.
  { intros [= <-] A B. set_solver. }
  intros (self & Ha & Hr)%bind_Ok A B.
  rewrite (IH _ Hr). simpl.
  pose proof (add_edge_frame _ _ _ _ _ _ Ha) as [Ht Hs].
  setoid_rewrite (node_ext (cmd w) self _ Ht Hs).
  rewrite (add_edge_seen _ _ _ _ _ _ Ha).
  setoid_rewrite elem_of_cons. naive_solver.
Qed.

Lemma for_sinks_names arrowhead task sinks w w' :
  for_sinks arrowhead task sinks w = Ok w' →
  ∀ n, n ∈ node_names (graph (cmd w)) → n ∈ node_names (graph (cmd w')).
Proof.
  revert w. induction sinks as [|sink_name sinks IH]; intros w; simpl.
  { by intros [= <-]. }
  intros (self & Ha & Hr)%bind_Ok n Hn.
  apply (IH _ Hr). simpl. by eapply add_edge_names.
Qed.

Lemma visit_drawn key w w' task :
  tasks_get (tasks (cmd w)) key = Some task → key ∉ processed w →
  visit key w = Ok w' →
  (∀ A B, (A, B) ∈ _edges (cmd w') ↔
          (A, B) ∈ _edges (cmd w) ∨
          A ≠ B ∧ ∃ y, y ∈ deps task ∧ node (cmd w) key = Ok A ∧
                       node (cmd w) y = Ok B) ∧
  (∀ n, n ∈ node_names (graph (cmd w)) → n ∈ node_names (graph (cmd w'))) ∧
  (shown (cmd w) key → key ∈ node_names (graph (cmd w'))).
Proof.
  intros Ht Hp. unfold visit, tasks_getitem. rewrite Ht. simpl.
  pose proof (tasks_get_name _ _ _ Ht) as Hn. rewrite Hn.
  rewrite bool_decide_eq_false_2 by done.
  intros (w1 & H1 & H2)%bind_Ok.
  pose proof (for_sinks_Ok _ _ _ _ _ H1) as (Ht1 & Hs1 & _).
  pose proof (for_sinks_seen _ _ _ _ _ H1) as He1.
  pose proof (for_sinks_seen _ _ _ _ _ H2) as He2.
  pose proof (for_sinks_names _ _ _ _ _ H1) as Hn1.
  pose proof (for_sinks_names _ _ _ _ _ H2) as Hn2.
  simpl in *.
  assert (∀ x, node (cmd w1) x = node (cmd w) x) as Hnode1.
  { intros x. apply node_ext; [rewrite Ht1|rewrite Hs1]; by destruct (_ || _). }
  split_and!.
  - intros A B. rewrite He2, He1. setoid_rewrite Hnode1. rewrite Hn.
    assert (∀ x, node (if negb (truthy (subtask_of task)) || subtasks (cmd w)
                       then with_graph (cmd w)
                              (graph_add_node (graph (cmd w)) key
                                 (if has_subtask task then Some "2" else None))
                       else cmd w) x = node (cmd w) x) as Hnode0.
    { intros x. by destruct (_ || _). }
    setoid_rewrite Hnode0.
    replace (_edges (if negb (truthy (subtask_of task)) || subtasks (cmd w)
                     then with_graph (cmd w)
                            (graph_add_node (graph (cmd w)) key
                               (if has_subtask task then Some "2" else None))
                     else cmd w)) with (_edges (cmd w))
      by (by destruct (_ || _)).
    unfold deps. setoid_rewrite elem_of_app. naive_solver.
  - intros n Hin. apply Hn2, Hn1. destruct (_ || _); [|done].
    simpl. apply graph_add_node_elem_of. by left.
  - intros (t & Ht' & Hshown). assert (t = task) as -> by congruence.
    apply Hn2, Hn1. rewrite Hshown. simpl.
    apply graph_add_node_elem_of. by right.
Qed.

Lemma visit_drawn_ok self p key rest w' :
  drawn_ok {| cmd := self; processed := p; to_process := key :: rest |} →
  visit key {| cmd := self; processed := p; to_process := rest |} = Ok w' →
  drawn_ok w'.
Proof.
  intros [He Hn] Hv. simpl in *.
  pose proof (visit_Ok _ _ _ Hv) as (task & Hg & Hname & Ht & Hs & H).
  simpl in *.
  destruct H as [[Hp ->]|(Hp & Hp' & Hq')]; [by split|].
  pose proof (visit_drawn key
                {| cmd := self; processed := p; to_process := rest |}
                w' task Hg Hp Hv) as (He' & Hn' & Hk').
  simpl in *.
  assert (∀ x, node (cmd w') x = node self x) as Hnode.
  { intros x. by apply node_ext. }
  split.
  - intros A B. rewrite He', He. setoid_rewrite Hnode. rewrite Ht, Hp'.
    unfold relationship. setoid_rewrite elem_of_app.
    setoid_rewrite list_elem_of_singleton. split.
    + intros [(Hne & x & y & [Hx (t & Htx & Hy)] & HA & HB)|
              (Hne & y & Hy & HA & HB)].
      * split; [done|]. exists x, y. eauto 10.
      * split; [done|]. exists key, y. eauto 10.
    + intros (Hne & x & y & [[Hx| ->] (t & Htx & Hy)] & HA & HB).
      * left. split; [done|]. exists x, y. eauto 10.
      * right. split; [done|]. exists y.
        assert (t = task) as -> by congruence. eauto.
  - intros x. rewrite Hp'. unfold shown. rewrite Ht, Hs.
    intros [Hx| ->%list_elem_of_singleton]%elem_of_app Hsh.
    + apply Hn'. by apply Hn.
    + by apply Hk'.
Qed.

Lemma while_to_process_drawn_ok fuel w w' :
  drawn_ok w → while_to_process fuel w = Ok w' → drawn_ok w'.
Proof.
  revert w. induction fuel as [|fuel IH]; intros w Hok; simpl.
  - destruct (to_process w); [|done]. by intros [= <-].
  - destruct (to_process w) as [|key rest] eqn:Hq; [by intros [= <-]|].
    intros (w1 & Hv & H)%bind_Ok. apply (IH w1); [|done].
    eapply visit_drawn_ok; [|exact Hv]. destruct w. simpl in *. by subst.
Qed.

Lemma populate_drawn_ok d st hz pos_args w :
  populate d st hz pos_args = Ok w → drawn_ok w.
Proof.
  unfold populate. apply while_to_process_drawn_ok. split; simpl.
  - intros A B. unfold relationship. set_solver.
  - by intros x ?%elem_of_nil.
Qed.

(** ** The traversal: a consistent registry gives a graph *)

Lemma add_edge_succeeds self src_name sink_name arrowhead label :
  edges_ok self →
  src_name ∈ keys (tasks self) → sink_name ∈ keys (tasks self) →
  ∃ self', add_edge self src_name sink_name arrowhead label = Ok self'.
Proof.
  intros [Hk _ _] [ts Hs]%tasks_get_is_Some [tk Hsk]%tasks_get_is_Some.
  assert (∃ source, node self src_name = Ok source) as [source Hsource].
  { unfold node, tasks_getitem. rewrite Hs. destruct (subtasks self); by eexists. }
  assert (∃ sink, node self sink_name = Ok sink) as [sink Hsink].
  { unfold node, tasks_getitem. rewrite Hsk. destruct (subtasks self); by eexists. }
  unfold add_edge. rewrite Hsource, Hsink. simpl.
  destruct (negb (String.eqb source sink)); [|by eexists].
  case_bool_decide as Hin; [|by eexists].
  destruct (truthy label); [|by eexists].
  rewrite Hk in Hin. apply find_edge_is_Some in Hin as [i Hi].
  unfold graph_get_edge. rewrite Hi. simpl. by eexists.
Qed.

Lemma for_sinks_succeeds arrowhead task sinks w :
  edges_ok (cmd w) →
  name task ∈ keys (tasks (cmd w)) →
  (∀ y, y ∈ sinks → y ∈ keys (tasks (cmd w))) →
  ∃ w', for_sinks arrowhead task sinks w = Ok w'.
Proof.
  revert w. induction sinks as [|sink_name sinks IH]; intros w Hok Ht Hy; simpl.
  { by eexists. }
  match goal with |- context [add_edge ?a ?b ?c ?d ?e] =>
    destruct (add_edge_succeeds a b c d e) as [self Ha]; [done|done|set_solver|]
  end.
  rewrite Ha. simpl. pose proof (add_edge_frame _ _ _ _ _ _ Ha) as [Hts _].
  apply IH; simpl.
  - by eapply add_edge_edges_ok.
  - by rewrite Hts.
  - rewrite Hts. set_solver.
Qed.

Lemma visit_succeeds key w :
  consistent (tasks (cmd w)) → edges_ok (cmd w) →
  key ∈ keys (tasks (cmd w)) →
  ∃ w', visit key w = Ok w'.
Proof.
  intros Hc Hok [task Ht]%tasks_get_is_Some.
  unfold visit, tasks_getitem. rewrite Ht. simpl.
  case_bool_decide; [by eexists|].
  assert (name task ∈ keys (tasks (cmd w))) as Hn.
  { rewrite (tasks_get_name _ _ _ Ht). apply tasks_get_is_Some. by eexists. }
  match goal with |- context [for_sinks ?a ?b ?c ?d] =>
    destruct (for_sinks_succeeds a b c d) as [w1 H1] end; simpl.
  - destruct (_ || _); [by destruct Hok|done].
  - by destruct (_ || _).
  - intros y Hy. assert (y ∈ keys (tasks (cmd w))).
    { eapply Hc; [done|]. unfold deps. set_solver. }
    by destruct (_ || _).
  - rewrite H1. simpl.
    pose proof (for_sinks_Ok _ _ _ _ _ H1) as (Ht1 & _). simpl in Ht1.
    assert (tasks (cmd w1) = tasks (cmd w)) as Ht1'.
    { rewrite Ht1. by destruct (_ || _). }
    apply for_sinks_succeeds.
    + eapply (for_sinks_preserves edges_ok); [apply add_edge_edges_ok| |done].
      simpl. destruct (_ || _); [by destruct Hok|done].
    + by rewrite Ht1'.
    + intros y Hy. rewrite Ht1'. eapply Hc; [done|]. unfold deps. set_solver.
Qed.

Lemma while_to_process_succeeds fuel w :
  budget w ≤ fuel →
  consistent (tasks (cmd w)) → edges_ok (cmd w) →
  (∀ x, x ∈ to_process w → x ∈ keys (tasks (cmd w))) →
  ∃ w', while_to_process fuel w = Ok w'.
Proof.
  revert w. induction fuel as [|fuel IH]; intros w Hb Hc Hok Hq.
  - destruct w as [self p [|key rest]]; [by eexists|].
    unfold budget in Hb. simpl in Hb. lia.
  - simpl. destruct (to_process w) as [|key rest] eqn:Hqw; [by eexists|].
    destruct (visit_succeeds key
                {| cmd := cmd w; processed := processed w; to_process := rest |})
      as [w1 Hv]; [done|done|set_solver|].
    rewrite Hv. simpl.
    pose proof (visit_budget _ _ _ Hv) as Hb1.
    pose proof (visit_Ok _ _ _ Hv) as (task & Hg & Hn & Ht & _ & H).
    simpl in *. apply IH.
    + unfold budget in *. rewrite Hqw in Hb. simpl in *. lia.
    + by rewrite Ht.
    + eapply (visit_preserves edges_ok); [apply add_edge_edges_ok| | |exact Hv];
        [by intros ?? []|done].
    + rewrite Ht. destruct H as [[_ ->]|(_ & _ & ->)]; [set_solver|].
      intros x [?|[_ ?]%list_elem_of_filter]%elem_of_app; [set_solver|].
      by eapply Hc.
Qed.

Lemma consistent_Forall d :
  Forall (λ t, Forall (λ y, y ∈ keys d) (deps t)) d → consistent d.
Proof.
  rewrite Forall_forall. intros H x t y Hx Hy.
  apply tasks_get_elem_of, H in Hx. by eapply Forall_forall in Hx.
Qed.

Lemma populate_succeeds d st hz pos_args :
  consistent d → (∀ x, x ∈ seeds d pos_args → x ∈ keys d) →
  ∃ w, populate d st hz pos_args = Ok w.
Proof.
  intros Hc Hs. unfold populate. apply while_to_process_succeeds; simpl.
  - done.
  - done.
  - split; simpl; [by destruct hz|constructor|].
    intros e. by destruct hz; intros ?%elem_of_nil.
  - done.
Qed.

Lemma edges_between_seen self A B :
  edges_ok self → (A, B) ∈ _edges self → edges_between (graph self) A B = 1.
Proof.
  intros Hok Hin. pose proof (edges_ok_between self A B Hok) as Hle.
  destruct Hok as [Hk _ _]. rewrite Hk in Hin.
  apply list_elem_of_fmap in Hin as (e & He & Hin).
  assert (e ∈ filter (λ e, key_of e = (A, B)) (edges (graph self))) as Hf.
  { by apply list_elem_of_filter. }
  unfold edges_between in *.
  destruct (filter _ _); [by apply elem_of_nil in Hf|]. simpl in *. lia.
Qed.

(** C2: the traversal always comes to an end, with a result or with an
    exception, and on a registry without dangling identities with a
    result.  When it ends with a result the queue is empty, the identities
    processed are those that can be reached from the roots (from every key
    of the registry when no root is given), each of them is a task of the
    registry and was processed once; every processed task that is shown
    has its node and no node name occurs twice; and a relationship of a
    processed task whose two ends resolve to different nodes has its edge,
    one and no more.  In the diamond, from the root [A], the tasks are
    processed in the order [A], [B], [C], [D], there is one node [D], one
    edge from [B] to [D] and one from [C] to [D]. *)
Theorem traversal_processes_each_reachable_task_once :
  (∀ d subtasks horizontal pos_args,
     populate d subtasks horizontal pos_args ≠ OutOfFuel) ∧
  (∀ d subtasks horizontal pos_args,
     consistent d → (∀ x, x ∈ seeds d pos_args → x ∈ keys d) →
     ∃ w, populate d subtasks horizontal pos_args = Ok w) ∧
  (∀ d subtasks horizontal pos_args w,
     populate d subtasks horizontal pos_args = Ok w →
     to_process w = [] ∧
     NoDup (processed w) ∧
     (∀ x, x ∈ processed w ↔ reachable d (seeds d pos_args) x) ∧
     (∀ x, x ∈ processed w → x ∈ keys d) ∧
     (seeds d pos_args = keys d → ∀ x, x ∈ processed w ↔ x ∈ keys d) ∧
     NoDup (node_names (graph (cmd w))) ∧
     (∀ x, x ∈ processed w → shown (cmd w) x →
           x ∈ node_names (graph (cmd w))) ∧
     (∀ A B, edges_between (graph (cmd w)) A B ≤ 1) ∧
     (∀ x y A B,
        relationship d (processed w) x y →
        node (cmd w) x = Ok A → node (cmd w) y = Ok B → A ≠ B →
        edges_between (graph (cmd w)) A B = 1)) ∧
  (∃ w, populate diamond false false (Some ["A"]) = Ok w ∧
        processed w = ["A"; "B"; "C"; "D"] ∧ to_process w = [] ∧
        node_names (graph (cmd w)) = ["A"; "B"; "C"; "D"] ∧
        key_of <$> edges (graph (cmd w)) =
          [("A", "B"); ("A", "C"); ("B", "D"); ("C", "D")] ∧
        edges_between (graph (cmd w)) "B" "D" = 1 ∧
        edges_between (graph (cmd w)) "C" "D" = 1).
Proof.
  split_and!.
  - apply populate_terminates.
  - apply populate_succeeds.
  - intros d st hz pos_args w Hw.
    pose proof (populate_walk_ok _ _ _ _ _ Hw) as Hwalk.
    pose proof (populate_edges_ok _ _ _ _ _ Hw) as Hedges.
    pose proof (populate_nodes_ok _ _ _ _ _ Hw) as [Hnd _ _].
    pose proof (populate_drawn_ok _ _ _ _ _ Hw) as [Hde Hdn].
    pose proof (populate_frame _ _ _ _ _ Hw) as [Ht _].
    assert (to_process w = []) as Hq.
    { unfold populate in Hw. by eapply while_to_process_empties. }
    split_and!; try done.
    + by destruct Hwalk.
    + intros x. by apply walk_ok_finished.
    + by destruct Hwalk.
    + intros Hsd x. split; [apply (walk_tasks _ _ _ Hwalk)|]. intros Hx.
      apply (walk_ok_finished _ _ _ _ Hwalk Hq), reachable_seed. by rewrite Hsd.
    + intros A B. by apply edges_ok_between.
    + intros x y A B Hrel HA HB Hne. apply edges_between_seen; [done|].
      apply Hde. split; [done|]. exists x, y. by rewrite Ht.
  - eexists. vm_compute. done.
Qed.

Lemma traversal_processes_each_reachable_task_once_witness :
  (∃ w, populate diamond false false (Some ["A"]) = Ok w) ∧
  ∃ w, populate diamond false false (Some ["A"]) = Ok w ∧
       to_process w = [] ∧ NoDup (processed w).
Proof.
  split.
  - apply (proj1 (proj2 traversal_processes_each_reachable_task_once)).
    + apply consistent_Forall, (bool_decide_unpack _). vm_compute. exact I.
    + intros x ->%list_elem_of_singleton.
      apply (bool_decide_unpack _). vm_compute. exact I.
  - assert (∃ w, populate diamond false false (Some ["A"]) = Ok w) as [w Hw].
    { eexists. vm_compute. reflexivity. }
    exists w. split; [exact Hw|].
    pose proof (proj1 (proj2 (proj2 traversal_processes_each_reachable_task_once))
                  diamond false false (Some ["A"]) w Hw) as H.
    split; apply H.
Defined.

(** ** Collapsed sub-tasks *)



Lemma or_else_falsy o d : truthy o = false → or_else o d = d.
Proof.
  unfold truthy, or_else. destruct o as [s|]; [|done].
  by destruct (String.eqb s "").
Qed.




Lemma reverse_flips_every_edge_witness :
  ∃ self out,
    outcome (_execute all_writable grouped true true false None
               (Some ["pkg"])) = Ok (self, out) ∧
    graph_reverse (written out) = graph self.
Proof.
  eexists _, _. split; [vm_compute; reflexivity|].
  eapply (reverse_flips_every_edge all_writable grouped true false None
            (Some ["pkg"])).
  vm_compute. reflexivity.
Defined.

(** * Further properties of the code *)

(** ** How a run can fail *)

Lemma add_edge_Raise self src_name sink_name arrowhead label e :
  edges_ok self →
  add_edge self src_name sink_name arrowhead label = Raise e →
  subtasks self = false ∧
  (tasks_get (tasks self) src_name = None ∧ e = KeyError src_name ∨
   is_Some (tasks_get (tasks self) src_name) ∧
   tasks_get (tasks self) sink_name = None ∧ e = KeyError sink_name).
Proof.
  intros [Hk _ _]. unfold add_edge.
  destruct (node self src_name) as [source|e1|] eqn:Hs; simpl.
  - destruct (node self sink_name) as [sink|e2|] eqn:Hsk; simpl.
    + destruct (negb (String.eqb source sink)); [|done].
      case_bool_decide as Hin; [|done].
      destruct (truthy label); [|done].
      rewrite Hk in Hin. apply find_edge_is_Some in Hin as [i Hi].
      unfold graph_get_edge. by rewrite Hi.
    + intros [= ->]. apply node_Raise in Hsk as (Hst & Hnone & ->).
      split; [done|]. right. split; [|done].
      apply node_Ok in Hs as [[? _]|(_ & t & Ht & _)]; [congruence|by eexists].
    + by apply node_terminates in Hsk.
  - intros [= ->]. apply node_Raise in Hs as (Hst & Hnone & ->). auto.
  - by apply node_terminates in Hs.
Qed.

Lemma for_sinks_Raise arrowhead task sinks w e :
  edges_ok (cmd w) →
  is_Some (tasks_get (tasks (cmd w)) (name task)) →
  for_sinks arrowhead task sinks w = Raise e →
  subtasks (cmd w) = false ∧
  ∃ y, y ∈ sinks ∧ tasks_get (tasks (cmd w)) y = None ∧ e = KeyError y.
Proof.
  revert w. induction sinks as [|sink_name sinks IH]; intros w Hok Ht; simpl.
  { done. }
  match goal with |- context [add_edge ?a ?b ?c ?d ?e] =>
    destruct (add_edge a b c d e) as [self|e1|] eqn:Ha end; simpl.
  - intros Hr. pose proof (add_edge_frame _ _ _ _ _ _ Ha) as [Hts Hst].
    apply IH in Hr as (Hsub & y & Hy & Hnone & ->); simpl in *.
    + split; [congruence|]. exists y. rewrite <-Hts. set_solver.
    + by eapply add_edge_edges_ok.
    + by rewrite Hts.
  - intros [= ->]. apply add_edge_Raise in Ha as (Hsub & H); [|done].
    split; [done|]. destruct H as [[Hnone _]|(_ & Hnone & ->)].
    + rewrite Hnone in Ht. by destruct Ht.
    + exists sink_name. set_solver.
  - by apply add_edge_terminates in Ha.
Qed.

Lemma visit_Raise key w e :
  edges_ok (cmd w) → visit key w = Raise e →
  tasks_get (tasks (cmd w)) key = None ∧ e = KeyError key ∨
  subtasks (cmd w) = false ∧
  ∃ task y, tasks_get (tasks (cmd w)) key = Some task ∧ y ∈ deps task ∧
            tasks_get (tasks (cmd w)) y = None ∧ e = KeyError y.
Proof.
  intros Hok. unfold visit, tasks_getitem.
  destruct (tasks_get _ _) as [task|] eqn:Ht; simpl; [|left; naive_solver].
  pose proof (tasks_get_name _ _ _ Ht) as Hn.
  case_bool_decide; [done|].
  assert (is_Some (tasks_get (tasks (cmd w)) (name task))) as Hsome.
  { rewrite Hn. by eexists. }
  match goal with |- context [for_sinks ?a ?b ?c ?d] =>
    destruct (for_sinks a b c d) as [w1|e1|] eqn:H1 end; simpl.
  - intros H2.
    pose proof (for_sinks_Ok _ _ _ _ _ H1) as (Ht1 & Hs1 & _). simpl in *.
    assert (tasks (cmd w1) = tasks (cmd w)) as Ht1'.
    { rewrite Ht1. by destruct (_ || _). }
    assert (subtasks (cmd w1) = subtasks (cmd w)) as Hs1'.
    { rewrite Hs1. by destruct (_ || _). }
    apply for_sinks_Raise in H2 as (Hsub & y & Hy & Hnone & ->).
    + right. split; [congruence|]. exists task, y. rewrite <-Ht1'.
      unfold deps. set_solver.
    + eapply (for_sinks_preserves edges_ok); [apply add_edge_edges_ok| |done].
      simpl. destruct (_ || _); [by destruct Hok|done].
    + by rewrite Ht1'.
  - intros [= ->]. apply for_sinks_Raise in H1 as (Hsub & y & Hy & Hnone & ->);
      simpl in *.
    + right. split; [by destruct (_ || _)|]. exists task, y.
      split; [done|]. split; [unfold deps; set_solver|].
      split; [|done]. by destruct (_ || _).
    + destruct (_ || _); [by destruct Hok|done].
    + by destruct (_ || _).
  - by apply for_sinks_terminates in H1.
Qed.

Lemma while_to_process_Raise d sd fuel w e :
  tasks (cmd w) = d → edges_ok (cmd w) → walk_ok d sd w →
  while_to_process fuel w = Raise e →
  ∃ k, e = KeyError k ∧ tasks_get d k = None ∧ reachable d sd k.
Proof.
  revert w. induction fuel as [|fuel IH]; intros w Hd Hok Hwalk; simpl.
  - by destruct (to_process w).
  - destruct (to_process w) as [|key rest] eqn:Hq; [done|].
    assert (walk_ok d sd {| cmd := cmd w; processed := processed w;
                            to_process := key :: rest |}) as Hwalk'.
    { destruct w. simpl in *. by subst. }
    assert (reachable d sd key) as Hkey.
    { apply (walk_reachable _ _ _ Hwalk'). simpl. set_solver. }
    match goal with |- context [visit ?a ?b] =>
      destruct (visit a b) as [w1|e1|] eqn:Hv end; simpl.
    + intros Hr. apply (IH w1); [| | |done].
      * apply visit_Ok in Hv as (_ & _ & _ & Ht & _). by rewrite Ht.
      * eapply (visit_preserves edges_ok);
          [apply add_edge_edges_ok| | |exact Hv]; [by intros ?? []|done].
      * eapply visit_walk_ok; [exact Hd|exact Hwalk'|exact Hv].
    + intros [= ->]. apply visit_Raise in Hv; [|done]. simpl in Hv. subst d.
      destruct Hv as [[Hnone ->]|(_ & task & y & Ht & Hy & Hnone & ->)].
      * by exists key.
      * exists y. split; [done|]. split; [done|]. by eapply reachable_dep.
    + by apply visit_terminates in Hv.
Qed.

Lemma populate_Raise d st hz pos_args e :
  populate d st hz pos_args = Raise e →
  ∃ k, e = KeyError k ∧ tasks_get d k = None ∧
       reachable d (seeds d pos_args) k.
Proof.
  unfold populate. apply while_to_process_Raise; [done| |].
  - split; simpl; [by destruct hz|constructor|].
    intros e'. by destruct hz; intros ?%elem_of_nil.
  - split; simpl.
    + intros x Hx. by apply reachable_seed.
    + done.
    + by intros x t y ?%elem_of_nil.
    + constructor.
    + by intros x ?%elem_of_nil.
Qed.

(** X1: in a state where the seen pairs are those of the edges, as in
    every state of a run, [add_edge] can fail in one way only: with the
    [KeyError] of the first of its two identities that the registry does
    not have, and only when sub-task display is disabled.  The lookup of
    the existing edge never fails, and with sub-tasks shown [add_edge]
    always succeeds. *)
Theorem add_edge_fails_only_on_an_absent_identity :
  ∀ self src_name sink_name arrowhead label,
    edges_ok self →
    (∀ e, add_edge self src_name sink_name arrowhead label = Raise e →
          subtasks self = false ∧
          (tasks_get (tasks self) src_name = None ∧ e = KeyError src_name ∨
           is_Some (tasks_get (tasks self) src_name) ∧
           tasks_get (tasks self) sink_name = None ∧ e = KeyError sink_name)) ∧
    (subtasks self = true ∨
     is_Some (tasks_get (tasks self) src_name) ∧
     is_Some (tasks_get (tasks self) sink_name) →
     ∃ self', add_edge self src_name sink_name arrowhead label = Ok self').
Proof.
  intros self src_name sink_name arrowhead label Hok. split.
  - intros e. by apply add_edge_Raise.
  - intros H.
    destruct (add_edge self src_name sink_name arrowhead label)
      as [self'|e|] eqn:Ha; [by eexists| |by apply add_edge_terminates in Ha].
    apply add_edge_Raise in Ha as (Hsub & Ha); [|done].
    destruct H as [?|[[? Hs] [? Hk]]]; [congruence|]. naive_solver.
Qed.

(** X2: a run fails for three reasons only.  The traversal raises nothing
    but the [KeyError] of an identity that the registry does not have and
    that can be reached from the seeds; when the traversal has succeeded,
    [len(pos_args)] raises [TypeError] for [pos_args = None] without an
    outfile; in both cases nothing has been printed.  And when the
    destination is known, the one failure left is that of writing the
    file, which comes after the line has been printed.  A run whose
    destination cannot be written ends in this way. *)
Theorem run_fails_for_three_reasons_only :
  (∀ d subtasks horizontal pos_args e,
     populate d subtasks horizontal pos_args = Raise e →
     ∃ k, e = KeyError k ∧ tasks_get d k = None ∧
          reachable d (seeds d pos_args) k) ∧
  (∀ writable d subtasks reverse horizontal outfile pos_args e,
     outcome (_execute writable d subtasks reverse horizontal outfile pos_args)
       = Raise e →
     (stdout (_execute writable d subtasks reverse horizontal outfile pos_args)
        = [] ∧
      ∃ k, e = KeyError k ∧ tasks_get d k = None ∧
           reachable d (seeds d pos_args) k) ∨
     (stdout (_execute writable d subtasks reverse horizontal outfile pos_args)
        = [] ∧
      e = TypeError ∧ pos_args = None ∧ truthy outfile = false ∧
      ∃ w, populate d subtasks horizontal pos_args = Ok w) ∨
     (∃ w dest,
        populate d subtasks horizontal pos_args = Ok w ∧
        destination outfile pos_args = Ok dest ∧
        writable dest = false ∧ e = OSError dest ∧
        stdout (_execute writable d subtasks reverse horizontal outfile
                  pos_args) = ["Generated file: " +:+ dest])) ∧
  (∀ writable d subtasks reverse horizontal outfile pos_args w dest,
     populate d subtasks horizontal pos_args = Ok w →
     destination outfile pos_args = Ok dest →
     writable dest = false →
     _execute writable d subtasks reverse horizontal outfile pos_args =
       {| stdout := ["Generated file: " +:+ dest];
          outcome := Raise (OSError dest) |}) ∧
  _execute none_writable diamond false false false None (Some []) =
    {| stdout := ["Generated file: tasks.dot"];
       outcome := Raise (OSError "tasks.dot") |}.
Proof.
  split; [apply populate_Raise|]. split_and!.
  - intros writable d st rv hz outfile pos_args e. rewrite _execute_unfold.
    destruct (populate d st hz pos_args) as [w|e1|] eqn:Hw; simpl.
    + unfold destination. destruct (truthy outfile) eqn:Ho; simpl.
      * destruct (writable (default "" outfile)) eqn:Hwr; simpl; [done|].
        intros [= <-]. right. right. by exists w, (default "" outfile).
      * destruct pos_args as [[|a [|b args]]|]; simpl.
        -- destruct (writable _) eqn:Hwr; simpl; [done|].
           intros [= <-]. right. right. by eexists w, _.
        -- destruct (writable _) eqn:Hwr; simpl; [done|].
           intros [= <-]. right. right. by eexists w, _.
        -- destruct (writable _) eqn:Hwr; simpl; [done|].
           intros [= <-]. right. right. by eexists w, _.
        -- intros [= <-]. right. left. split_and!; try done. by exists w.
    + intros [= ->]. left. split; [done|]. by eapply populate_Raise.
    + done.
  - intros writable d st rv hz outfile pos_args w dest Hw Hd Hwr.
    by rewrite _execute_unfold, Hw, Hd, Hwr.
  - vm_compute. reflexivity.
Qed.

(** ** What a visit does to the edges *)

Lemma same_but_label_trans e1 e2 e3 :
  same_but_label e1 e2 → same_but_label e2 e3 → same_but_label e1 e3.
Proof. unfold same_but_label. intros [-> ->] [-> ->]. done. Qed.

Lemma same_but_label_refl e : same_but_label e e.
Proof. done. Qed.

Lemma new_label_nonempty old l : l ≠ "" → new_label old l ≠ "".
Proof.
  unfold new_label. intros Hl. destruct (String.eqb_spec old ""); simpl; [done|].
  destruct old; [done|]. done.
Qed.

(** Every edge after [add_edge] is an edge from before, with its end
    points and arrowhead and with its label or the merged one, or it is
    the new edge of the two resolved identities. *)
Lemma add_edge_edges self src_name sink_name arrowhead label self' :
  add_edge self src_name sink_name arrowhead label = Ok self' →
  ∀ e', e' ∈ edges (graph self') →
    (∃ e, e ∈ edges (graph self) ∧ same_but_label e e' ∧
          (e' = e ∨
           truthy label = true ∧
           e' = set_label
                  (new_label (default "" (attr_label e)) (default "" label))
                  e)) ∨
    (attr_arrowhead e' = arrowhead ∧
     node self src_name = Ok (edge_source e') ∧
     node self sink_name = Ok (edge_sink e') ∧
     e' = new_edge (edge_source e') (edge_sink e') arrowhead
            (if truthy label then label else None)).
Proof.
  intros (source & sink & Hs & Hk & H)%add_edge_Ok e' He'.
  destruct H as [[_ ->]|[(_ & _ & _ & ->)|
    [(Hne & Hin & Hl & i & Hi & ->)|(Hne & Hin & ->)]]].
  - left. exists e'. split_and!; auto using same_but_label_refl.
  - left. exists e'. split_and!; auto using same_but_label_refl.
  - left. simpl in He'. apply list_elem_of_lookup in He' as [j Hj].
    rewrite list_lookup_alter in Hj. case_decide as Hij; [subst j|].
    + destruct (edges (graph self) !! i) as [e|] eqn:He; simplify_eq/=.
      exists e. split; [by eapply list_elem_of_lookup_2|]. split; [done|].
      right. split; [done|]. unfold existing_label. by rewrite He.
    + exists e'. split; [by eapply list_elem_of_lookup_2|].
      split; [done|]. by left.
  - cbn [graph] in He'. rewrite graph_add_edge_edges in He'.
    apply elem_of_app in He' as [He'| ->%list_elem_of_singleton].
    + left. exists e'. split_and!; auto using same_but_label_refl.
    + right. by rewrite Hs, Hk.
Qed.

Lemma add_edge_labels_ok self src_name sink_name arrowhead label self' :
  labels_ok self →
  add_edge self src_name sink_name arrowhead label = Ok self' →
  labels_ok self'.
Proof.
  intros Hok Ha e' He'.
  destruct (add_edge_edges _ _ _ _ _ _ Ha e' He')
    as [(e & He & _ & [->|[Hl ->]])|(_ & _ & _ & ->)].
  - by apply Hok.
  - cbn [set_label attr_label attr_label_html]. intros [= Hnew].
    apply stored_label_empty in Hnew; [done|]. apply new_label_nonempty.
    destruct label as [l|]; [|done]. simpl in *.
    by apply negb_true_iff, String.eqb_neq in Hl.
  - destruct label as [l|]; simpl; [|done].
    destruct (String.eqb_spec l ""); simpl; [done|].
    intros [= Hnew]. by apply stored_label_empty in Hnew.
Qed.

Lemma for_sinks_edges arrowhead task sinks w w' :
  for_sinks arrowhead task sinks w = Ok w' →
  ∀ e', e' ∈ edges (graph (cmd w')) →
    (∃ e, e ∈ edges (graph (cmd w)) ∧ same_but_label e e') ∨
    (attr_arrowhead e' = arrowhead ∧
     ∃ y, y ∈ sinks ∧ node (cmd w) (name task) = Ok (edge_source e') ∧
          node (cmd w) y = Ok (edge_sink e')).
Proof.
  revert w. induction sinks as [|sink_name sinks IH]; intros w; simpl.
  { intros [= <-] e' He'. left. by exists e'. }
  intros (self & Ha & Hr)%bind_Ok e' He'.
  pose proof (add_edge_frame _ _ _ _ _ _ Ha) as [Ht Hs].
  destruct (IH _ Hr e' He') as [(e & He & Hsame)|(Harrow & y & Hy & Hx & Hyn)];
    simpl in *.
  - destruct (add_edge_edges _ _ _ _ _ _ Ha e He)
      as [(e0 & He0 & Hsame0 & _)|(Harrow & Hx & Hyn & _)].
    + left. exists e0. split; [done|]. by eapply same_but_label_trans.
    + right. destruct Hsame as [Hkey Harr]. unfold key_of in Hkey.
      split; [congruence|]. exists sink_name. split; [set_solver|].
      split; congruence.
  - right. split; [done|]. exists y. split; [set_solver|].
    by rewrite <-!(node_ext (cmd w) self _ Ht Hs).
Qed.

(** The two loops that a visit of an unprocessed task runs. *)
Lemma visit_unfold key w w' task :
  tasks_get (tasks (cmd w)) key = Some task → key ∉ processed w →
  visit key w = Ok w' →
  name task = key ∧
  ∃ w1,
    for_sinks "empty" task (setup_tasks task)
      {| cmd := if negb (truthy (subtask_of task)) || subtasks (cmd w)
                then with_graph (cmd w)
                       (graph_add_node (graph (cmd w)) key
                          (if has_subtask task then Some "2" else None))
                else cmd w;
         processed := processed w ++ [key];
         to_process := to_process w |} = Ok w1 ∧
    for_sinks "" task (task_dep task) w1 = Ok w'.
Proof.
  intros Ht Hp. unfold visit, tasks_getitem. rewrite Ht. simpl.
  pose proof (tasks_get_name _ _ _ Ht) as Hn. rewrite Hn.
  rewrite bool_decide_eq_false_2 by done.
  intros (w1 & H1 & H2)%bind_Ok. split; [done|]. by exists w1.
Qed.

Lemma visit_edges key w w' task :
  tasks_get (tasks (cmd w)) key = Some task → key ∉ processed w →
  visit key w = Ok w' →
  ∀ e', e' ∈ edges (graph (cmd w')) →
    (∃ e, e ∈ edges (graph (cmd w)) ∧ same_but_label e e') ∨
    ∃ y, (attr_arrowhead e' = "empty" ∧ y ∈ setup_tasks task ∨
          attr_arrowhead e' = "" ∧ y ∈ task_dep task) ∧
         node (cmd w) key = Ok (edge_source e') ∧
         node (cmd w) y = Ok (edge_sink e').
Proof.
  intros Ht Hp Hv e' He'.
  destruct (visit_unfold _ _ _ _ Ht Hp Hv) as (Hn & w1 & H1 & H2).
  pose proof (for_sinks_Ok _ _ _ _ _ H1) as (Ht1 & Hs1 & _). simpl in *.
  assert (∀ x, node (cmd w1) x = node (cmd w) x) as Hnode1.
  { intros x. apply node_ext; [rewrite Ht1|rewrite Hs1]; by destruct (_ || _). }
  rewrite <-Hn.
  destruct (for_sinks_edges _ _ _ _ _ H2 e' He')
    as [(e1 & He1 & Hsame1)|(Harrow & y & Hy & Hx & Hyn)].
  - destruct (for_sinks_edges _ _ _ _ _ H1 e1 He1)
      as [(e & He & Hsame)|(Harrow & y & Hy & Hx & Hyn)]; simpl in *.
    + left. exists e. split; [by destruct (_ || _)|].
      by eapply same_but_label_trans.
    + right. destruct Hsame1 as [Hkey Harr]. unfold key_of in Hkey.
      exists y. split; [left; split; [congruence|done]|].
      assert (∀ x, node (if negb (truthy (subtask_of task)) || subtasks (cmd w)
                         then with_graph (cmd w)
                                (graph_add_node (graph (cmd w)) key
                                   (if has_subtask task then Some "2" else None))
                         else cmd w) x = node (cmd w) x) as Hnode0.
      { intros x. by destruct (_ || _). }
      rewrite Hnode0 in Hx, Hyn. split; congruence.
  - right. exists y. rewrite Hnode1 in Hx, Hyn. auto.
Qed.

(** ** What a property of the walk needs to hold after the loop *)

Section walk_preservation.
Variable Q : Walk → Prop.

Hypothesis Q_queue : ∀ w q,
  Q w → Q {| cmd := cmd w; processed := processed w; to_process := q |}.

Hypothesis Q_visit : ∀ key w w' task,
  Q w → tasks_get (tasks (cmd w)) key = Some task → key ∉ processed w →
  visit key w = Ok w' → Q w'.

Lemma while_to_process_preserves_walk fuel w w' :
  Q w → while_to_process fuel w = Ok w' → Q w'.
Proof using Q_queue Q_visit.
  revert w. induction fuel as [|fuel IH]; intros w HQ; simpl.
  - destruct (to_process w); [|done]. by intros [= <-].
  - destruct (to_process w) as [|key rest] eqn:Hq; [by intros [= <-]|].
    intros (w1 & Hv & H)%bind_Ok. apply (IH w1); [|done].
    pose proof (visit_Ok _ _ _ Hv) as (task & Hg & _ & _ & _ & Hcase).
    simpl in *. destruct Hcase as [[_ ->]|(Hp & _)]; [by apply Q_queue|].
    eapply Q_visit; [apply (Q_queue w rest HQ)|exact Hg|exact Hp|exact Hv].
Qed.
End walk_preservation.

Lemma visit_arrows_ok key w w' task :
  arrows_ok w → tasks_get (tasks (cmd w)) key = Some task →
  key ∉ processed w → visit key w = Ok w' → arrows_ok w'.
Proof.
  intros Hok Ht Hp Hv e' He'.
  pose proof (visit_Ok _ _ _ Hv) as (task' & Hg & _ & Hts & Hss & Hcase).
  destruct Hcase as [[? _]|(_ & Hp' & _)]; [done|].
  assert (∀ x, node (cmd w') x = node (cmd w) x) as Hnode.
  { intros x. by apply node_ext. }
  rewrite Hts, Hp'. setoid_rewrite Hnode. unfold relationship_of.
  setoid_rewrite elem_of_app. setoid_rewrite list_elem_of_singleton.
  destruct (visit_edges _ _ _ _ Ht Hp Hv e' He')
    as [(e & He & Hkey & Harr)|(y & Hkind & Hx & Hy)].
  - destruct (Hok e He) as (x & y & (Hx & t & Htx & Hkind) & HA & HB).
    unfold key_of in Hkey. exists x, y. rewrite Harr.
    split; [eauto 10|]. split; congruence.
  - exists key, y. split; [|done]. split; [by right|]. exists task.
    split; [done|]. naive_solver.
Qed.

Lemma populate_arrows_ok d st hz pos_args w :
  populate d st hz pos_args = Ok w → arrows_ok w.
Proof.
  unfold populate. apply (while_to_process_preserves_walk arrows_ok).
  - done.
  - intros key w0 w' task. apply visit_arrows_ok.
  - intros e. simpl. by destruct hz; intros ?%elem_of_nil.
Qed.

Lemma populate_labels_ok d st hz pos_args w :
  populate d st hz pos_args = Ok w → labels_ok (cmd w).
Proof.
  apply populate_preserves.
  - apply add_edge_labels_ok.
  - done.
  - intros g Hg _ e. simpl. rewrite Hg. by intros ?%elem_of_nil.
Qed.

(** X3: every edge of the graph a run builds, and of the graph it writes,
    stands for a relationship of its kind: an edge with the arrowhead
    [empty] joins the resolved identities of a processed task and of one
    of its setup tasks, an edge with the solid (empty-string) arrowhead
    those of a processed task and of one of its task dependencies, and no
    edge has another arrowhead. *)
Theorem arrowhead_tells_the_kind_of_relationship :
  ∀ d subtasks horizontal pos_args w,
    populate d subtasks horizontal pos_args = Ok w →
    ∀ e, e ∈ edges (graph (cmd w)) →
      (attr_arrowhead e = "empty" ∨ attr_arrowhead e = "") ∧
      ∃ x t y,
        x ∈ processed w ∧ tasks_get d x = Some t ∧
        (attr_arrowhead e = "empty" ∧ y ∈ setup_tasks t ∨
         attr_arrowhead e = "" ∧ y ∈ task_dep t) ∧
        node (cmd w) x = Ok (edge_source e) ∧
        node (cmd w) y = Ok (edge_sink e).
Proof.
  intros d st hz pos_args w Hw e He.
  pose proof (populate_frame _ _ _ _ _ Hw) as [Ht _].
  destruct (populate_arrows_ok _ _ _ _ _ Hw e He)
    as (x & y & (Hx & t & Htx & Hkind) & HA & HB).
  rewrite Ht in Htx. split; [naive_solver|]. exists x, t, y. auto.
Qed.

Lemma labels_ok_written self e :
  labels_ok self → e ∈ edges (graph self) →
  label_as_written e ≠ Some "" ∧
  (attr_label e = Some "" →
   attr_label_html e = true ∧ label_as_written e = Some "<>").
Proof.
  intros Hok He. specialize (Hok e He). unfold label_as_written.
  destruct (attr_label e) as [l|]; simpl; [|done].
  destruct (attr_label_html e) eqn:Eh.
  - split; [done|]. by intros [= ->].
  - split.
    + intros [= ->]. by specialize (Hok eq_refl).
    + intros H. by specialize (Hok H).
Qed.

(** X4: no edge of the graph a run builds, which is the graph it writes
    unless [reverse] is set, is written with the empty string for its
    label: a relationship without connecting files sets no label, and
    merging keeps a label non-empty.  The text read back from an edge is
    empty for one label only, the HTML string without text that the one
    connecting file [<>] gives. *)
Theorem no_edge_has_an_empty_label :
  (∀ writable d subtasks reverse horizontal outfile pos_args self out,
     outcome (_execute writable d subtasks reverse horizontal outfile pos_args)
       = Ok (self, out) →
     (∀ e, e ∈ edges (graph self) →
        label_as_written e ≠ Some "" ∧
        (attr_label e = Some "" →
         attr_label_html e = true ∧ label_as_written e = Some "<>")) ∧
     (reverse = false →
      ∀ e, e ∈ edges (written out) → label_as_written e ≠ Some "")) ∧
  (∃ self out e,
     outcome (_execute all_writable bare_brackets false false false None
                (Some [])) = Ok (self, out) ∧
     edges (graph self) = [e] ∧ attr_label e = Some "" ∧
     label_as_written e = Some "<>").
Proof.
  split.
  - intros writable d st rv hz outfile pos_args self out H.
    apply _execute_Ok in H as (w & dest & Hw & _ & -> & -> & _).
    pose proof (populate_labels_ok _ _ _ _ _ Hw) as Hok.
    split; [intros e He; by apply (labels_ok_written (cmd w))|].
    intros ->. cbn [written]. intros e He.
    by apply (labels_ok_written (cmd w)).
  - eexists _, _, _. vm_compute. done.
Qed.

(** ** The attributes of the graph *)

Lemma graph_add_edge_attrs g u v a l :
  graph_attr (graph_add_edge g u v a l) = graph_attr g ∧
  node_attr (graph_add_edge g u v a l) = node_attr g.
Proof.
  unfold graph_add_edge. simpl.
  destruct (has_node g u); simpl; destruct (has_node _ v); done.
Qed.

Lemma add_edge_attrs self src_name sink_name arrowhead label self' :
  add_edge self src_name sink_name arrowhead label = Ok self' →
  graph_attr (graph self') = graph_attr (graph self) ∧
  node_attr (graph self') = node_attr (graph self).
Proof.
  intros (source & sink & _ & _ & H)%add_edge_Ok.
  destruct H as [[_ ->]|[(_ & _ & _ & ->)|
    [(_ & _ & _ & i & _ & ->)|(_ & _ & ->)]]]; try done.
  apply graph_add_edge_attrs.
Qed.

(** X5: the graph a run builds, and the graph it writes, has the attribute
    [rankdir=LR] when [horizontal] is set and no graph attribute
    otherwise, and its node defaults are the colour [lightblue2] and the
    style [filled]; the traversal and the reversal leave them alone. *)
Theorem graph_attributes_are_those_of_the_options :
  ∀ writable d subtasks reverse horizontal outfile pos_args self out,
    outcome (_execute writable d subtasks reverse horizontal outfile pos_args)
       = Ok (self, out) →
    graph_attr (graph self) = (if horizontal then [("rankdir", "LR")] else []) ∧
    node_attr (graph self) = [("color", "lightblue2"); ("style", "filled")] ∧
    graph_attr (written out) = graph_attr (graph self) ∧
    node_attr (written out) = node_attr (graph self).
Proof.
  intros writable d st rv hz outfile pos_args self out H.
  apply _execute_Ok in H as (w & dest & Hw & _ & -> & -> & _).
  assert (graph_attr (graph (cmd w)) = (if hz then [("rankdir", "LR")] else [])
          ∧ node_attr (graph (cmd w)) =
              [("color", "lightblue2"); ("style", "filled")]) as [Hg Hn].
  { revert Hw. unfold populate.
    apply (while_to_process_preserves
             (λ self, graph_attr (graph self) =
                        (if hz then [("rankdir", "LR")] else []) ∧
                      node_attr (graph self) =
                        [("color", "lightblue2"); ("style", "filled")])).
    - intros self ????? [<- <-] Ha. by apply add_edge_attrs in Ha.
    - by intros self task [<- <-].
    - simpl. by destruct hz. }
  split_and!; try done; cbn [written]; by destruct rv.
Qed.

(** ** The nodes of the graph, one by one *)

Lemma graph_add_node_nodes_new g n attrs :
  has_node g n = false →
  nodes (graph_add_node g n attrs) =
  nodes g ++ [{| node_name := n; attr_peripheries := attrs |}].
Proof. unfold graph_add_node. simpl. by intros ->. Qed.

Lemma graph_add_edge_nodes g u v a l :
  ∃ extra,
    nodes (graph_add_edge g u v a l) = nodes g ++ extra ∧
    ∀ nd, nd ∈ extra →
      attr_peripheries nd = None ∧ (node_name nd = u ∨ node_name nd = v).
Proof.
  unfold graph_add_edge. cbn [nodes].
  destruct (has_node g u) eqn:Eu.
  - destruct (has_node g v) eqn:Ev.
    + exists []. split; [by rewrite app_nil_r|]. by intros nd ?%elem_of_nil.
    + rewrite graph_add_node_nodes_new by done. eexists. split; [done|].
      intros nd ->%list_elem_of_singleton. auto.
  - destruct (has_node (graph_add_node g u None) v) eqn:Ev.
    + rewrite graph_add_node_nodes_new by done. eexists. split; [done|].
      intros nd ->%list_elem_of_singleton. auto.
    + rewrite graph_add_node_nodes_new by done.
      rewrite graph_add_node_nodes_new by done. rewrite <-app_assoc.
      eexists. split; [done|].
      intros nd [->| ->%list_elem_of_singleton]%elem_of_cons; auto.
Qed.

Lemma add_edge_keys self src_name sink_name arrowhead label self' :
  add_edge self src_name sink_name arrowhead label = Ok self' →
  ∀ k, k ∈ key_of <$> edges (graph self) → k ∈ key_of <$> edges (graph self').
Proof.
  intros (source & sink & _ & _ & H)%add_edge_Ok k Hk.
  destruct H as [[_ ->]|[(_ & _ & _ & ->)|
    [(_ & _ & _ & i & _ & ->)|(_ & _ & ->)]]]; try done.
  - cbn [graph with_graph]. by rewrite set_edge_label_keys.
  - cbn [graph]. rewrite graph_add_edge_edges, fmap_app. set_solver.
Qed.

Lemma for_sinks_keys arrowhead task sinks w w' :
  for_sinks arrowhead task sinks w = Ok w' →
  ∀ k, k ∈ key_of <$> edges (graph (cmd w)) →
       k ∈ key_of <$> edges (graph (cmd w')).
Proof.
  revert w. induction sinks as [|sink_name sinks IH]; intros w; simpl.
  { by intros [= <-]. }
  intros (self & Ha & Hr)%bind_Ok k Hk.
  apply (IH _ Hr). simpl. by eapply add_edge_keys.
Qed.

Lemma end_point_keys g g' n :
  (∀ k, k ∈ key_of <$> edges g → k ∈ key_of <$> edges g') →
  end_point g n → end_point g' n.
Proof.
  intros Hk (e & He & Hn).
  assert (key_of e ∈ key_of <$> edges g') as Hin.
  { apply Hk. by apply list_elem_of_fmap_2. }
  apply list_elem_of_fmap in Hin as (e' & Hkey & He').
  exists e'. split; [done|]. unfold key_of in Hkey. naive_solver.
Qed.

(** [add_edge] keeps the nodes there are as they are, and a node it adds
    has no attribute and is an end point of an edge. *)
Lemma add_edge_nodes self src_name sink_name arrowhead label self' :
  add_edge self src_name sink_name arrowhead label = Ok self' →
  (∀ nd, nd ∈ nodes (graph self) → nd ∈ nodes (graph self')) ∧
  (∀ nd, nd ∈ nodes (graph self') →
     nd ∈ nodes (graph self) ∨
     attr_peripheries nd = None ∧ end_point (graph self') (node_name nd)).
Proof.
  intros (source & sink & _ & _ & H)%add_edge_Ok.
  destruct H as [[_ ->]|[(_ & _ & _ & ->)|
    [(_ & _ & _ & i & _ & ->)|(_ & _ & ->)]]]; try by auto.
  cbn [graph].
  destruct (graph_add_edge_nodes (graph self) source sink arrowhead
              (if truthy label then label else None)) as (extra & -> & Hx).
  split; [set_solver|]. intros nd [?|Hnd]%elem_of_app; [by left|right].
  destruct (Hx nd Hnd) as [Hp Hn]. split; [done|].
  eexists. rewrite graph_add_edge_edges.
  split; [apply elem_of_app; right; apply list_elem_of_singleton; done|].
  simpl. naive_solver.
Qed.

Lemma for_sinks_nodes arrowhead task sinks w w' :
  for_sinks arrowhead task sinks w = Ok w' →
  (∀ nd, nd ∈ nodes (graph (cmd w)) → nd ∈ nodes (graph (cmd w'))) ∧
  (∀ nd, nd ∈ nodes (graph (cmd w')) →
     nd ∈ nodes (graph (cmd w)) ∨
     attr_peripheries nd = None ∧ end_point (graph (cmd w')) (node_name nd)).
Proof.
  revert w. induction sinks as [|sink_name sinks IH]; intros w; simpl.
  { intros [= <-]. auto. }
  intros (self & Ha & Hr)%bind_Ok.
  destruct (add_edge_nodes _ _ _ _ _ _ Ha) as [Ha1 Ha2].
  destruct (IH _ Hr) as [Hr1 Hr2]. simpl in *. split; [by auto|].
  intros nd Hnd. destruct (Hr2 nd Hnd) as [Hin|?]; [|by right].
  destruct (Ha2 nd Hin) as [?|[Hp Hend]]; [by left|right].
  split; [done|]. eapply end_point_keys; [|exact Hend].
  apply (for_sinks_keys _ _ _ _ _ Hr).
Qed.

Lemma graph_add_node_nodes g n attrs nd :
  nd ∈ nodes (graph_add_node g n attrs) →
  nd ∈ nodes g ∧ node_name nd ≠ n ∨
  node_name nd = n ∧
  (attr_peripheries nd = attrs ∨
   attrs = None ∧ ∃ nd0, nd0 ∈ nodes g ∧ node_name nd0 = n ∧
                          attr_peripheries nd = attr_peripheries nd0).
Proof.
  unfold graph_add_node. simpl. destruct (has_node g n) eqn:E.
  - intros (nd0 & -> & Hnd0)%list_elem_of_fmap. unfold update_node.
    destruct (String.eqb_spec (node_name nd0) n) as [Hn|Hn]; [|by left].
    right. split; [done|]. simpl. destruct attrs; [by left|right]. eauto.
  - intros [Hnd| ->%list_elem_of_singleton]%elem_of_app; [left|right; by auto].
    split; [done|]. intros <-.
    assert (has_node g (node_name nd) = true); [|congruence].
    apply has_node_elem_of. by apply list_elem_of_fmap_2.
Qed.

Lemma graph_add_node_other g n attrs nd :
  nd ∈ nodes g → node_name nd ≠ n → nd ∈ nodes (graph_add_node g n attrs).
Proof.
  intros Hnd Hn. unfold graph_add_node. simpl. destruct (has_node g n).
  - apply list_elem_of_fmap. exists nd. split; [|done].
    unfold update_node. by destruct (String.eqb_spec (node_name nd) n).
  - set_solver.
Qed.

Lemma graph_add_node_self g n p :
  ∃ nd, nd ∈ nodes (graph_add_node g n (Some p)) ∧
        node_name nd = n ∧ attr_peripheries nd = Some p.
Proof.
  unfold graph_add_node. simpl. destruct (has_node g n) eqn:E.
  - apply has_node_elem_of in E.
    apply list_elem_of_fmap in E as (nd0 & Hn & Hnd0).
    exists (update_node n (Some p) nd0). split.
    + apply list_elem_of_fmap. by exists nd0.
    + unfold update_node. rewrite <-Hn, String.eqb_refl. done.
  - eexists. split; [apply elem_of_app; right; by apply list_elem_of_singleton|].
    done.
Qed.

Lemma NoDup_names_eq (l : list Node) nd nd' :
  NoDup (node_name <$> l) → nd ∈ l → nd' ∈ l →
  node_name nd = node_name nd' → nd = nd'.
Proof.
  induction l as [|x l IH]; [by intros _ ?%elem_of_nil|].
  rewrite fmap_cons, NoDup_cons. intros [Hx Hnd].
  intros [->|H1]%elem_of_cons [->|H2]%elem_of_cons Hn; [done| | |by auto].
  - destruct Hx. rewrite Hn. by apply list_elem_of_fmap_2.
  - destruct Hx. rewrite <-Hn. by apply list_elem_of_fmap_2.
Qed.

Lemma add_node_nodes_ok self task :
  nodes_ok self →
  tasks_get (tasks self) (name task) = Some task →
  negb (truthy (subtask_of task)) || subtasks self = true →
  nodes_ok (with_graph self
              (graph_add_node (graph self) (name task)
                 (if has_subtask task then Some "2" else None))).
Proof.
  intros [Hnd Hres Hends] Ht Hc. split; cbn [graph with_graph].
  - by apply graph_add_node_NoDup.
  - intros n [Hn| ->]%graph_add_node_elem_of.
    + destruct (Hres n Hn) as [x Hx]. by exists x.
    + exists (name task). apply node_Ok. cbn [subtasks tasks with_graph].
      destruct (subtasks self); [by left|right]. split; [done|].
      exists task. split; [done|].
      rewrite orb_false_r in Hc. apply negb_true_iff in Hc.
      by rewrite or_else_falsy.
  - intros e He. setoid_rewrite graph_add_node_elem_of.
    destruct (Hends e He). auto.
Qed.

Lemma visit_nodes_ok key w w' :
  nodes_ok (cmd w) → visit key w = Ok w' → nodes_ok (cmd w').
Proof.
  apply (visit_preserves nodes_ok).
  - apply add_edge_nodes_ok.
  - apply add_node_nodes_ok.
Qed.

Lemma visit_borders_ok key w w' task :
  nodes_ok (cmd w) → drawn_ok w → borders_ok w →
  tasks_get (tasks (cmd w)) key = Some task → key ∉ processed w →
  visit key w = Ok w' → borders_ok w'.
Proof.
  intros Hnodes [_ Hdn] [Hbt Hbg Hbp] Ht Hp Hv.
  pose proof (visit_nodes_ok _ _ _ Hnodes Hv) as [Hnd' _ _].
  pose proof (visit_Ok _ _ _ Hv) as (task' & Hg & _ & Hts & Hss & Hcase).
  destruct Hcase as [[? _]|(_ & Hp' & _)]; [done|]. clear task' Hg.
  destruct (visit_unfold _ _ _ _ Ht Hp Hv) as (Hn & w1 & H1 & H2).
  destruct (for_sinks_nodes _ _ _ _ _ H1) as [H1a H1b].
  destruct (for_sinks_nodes _ _ _ _ _ H2) as [H2a H2b].
  pose proof (for_sinks_keys _ _ _ _ _ H1) as Hk1.
  pose proof (for_sinks_keys _ _ _ _ _ H2) as Hk2.
  simpl in *.
  set (c := negb (truthy (subtask_of task)) || subtasks (cmd w)) in *.
  set (attrs := if has_subtask task then Some "2" else None) in *.
  assert (∀ n, end_point (graph (cmd w)) n → end_point (graph (cmd w')) n)
    as Hend.
  { intros n Hn0. eapply end_point_keys; [exact Hk2|].
    eapply end_point_keys; [exact Hk1|]. by destruct c. }
  assert (∀ x, shown (cmd w') x ↔ shown (cmd w) x) as Hshown.
  { intros x. unfold shown. by rewrite Hts, Hss. }
  assert (∀ nd, nd ∈ nodes (graph (cmd w')) →
            nd ∈ nodes (graph (if c then with_graph (cmd w)
                                   (graph_add_node (graph (cmd w)) key attrs)
                                 else cmd w)) ∨
            attr_peripheries nd = None ∧
            end_point (graph (cmd w')) (node_name nd)) as Hfrom.
  { intros nd Hnd. destruct (H2b nd Hnd) as [Hnd1|?]; [|by right].
    destruct (H1b nd Hnd1) as [?|[? Hep]]; [by left|right].
    split; [done|]. by eapply end_point_keys. }
  split.
  - intros nd p Hnd Hper. rewrite Hts, Hss, Hp'.
    destruct (Hfrom nd Hnd) as [Hnd0|[? _]]; [|congruence].
    assert (nd ∈ nodes (graph (cmd w)) →
            p = "2" ∧ node_name nd ∈ processed w ++ [key] ∧
            ∃ t, tasks_get (tasks (cmd w)) (node_name nd) = Some t ∧
                 has_subtask t = true ∧
                 negb (truthy (subtask_of t)) || subtasks (cmd w) = true)
      as Hold.
    { intros Hin. destruct (Hbt nd p Hin Hper) as (? & ? & ?).
      split; [done|]. split; [set_solver|done]. }
    destruct c eqn:Hc; [|by auto]. cbn [graph with_graph] in Hnd0.
    apply graph_add_node_nodes in Hnd0
      as [[? _]|[Hname [Hattr|(Hnone & nd0 & Hnd0 & Hname0 & Hattr)]]];
      [by auto| |].
    + subst attrs. destruct (has_subtask task) eqn:Hsub; [|congruence].
      rewrite Hname. split; [congruence|]. split; [set_solver|]. eauto.
    + rewrite Hattr in Hper. destruct (Hbt nd0 p Hnd0 Hper) as (_ & Hin & _).
      rewrite Hname0 in Hin. done.
  - intros nd t Hnd Hin Htn Hcond Hsub. rewrite Hts in Htn. rewrite Hss in Hcond.
    rewrite Hp' in Hin.
    assert (∃ nd0, nd0 ∈ nodes (graph (if c then with_graph (cmd w)
                                         (graph_add_node (graph (cmd w)) key attrs)
                                       else cmd w)) ∧
                   node_name nd0 = node_name nd ∧
                   attr_peripheries nd0 = Some "2") as (nd0 & Hnd0 & Hname0 & Hattr0).
    { apply elem_of_app in Hin as [Hin|Hin%list_elem_of_singleton].
      - assert (node_name nd ∈ node_names (graph (cmd w))) as Hnames.
        { apply Hdn; [done|]. by exists t. }
        apply list_elem_of_fmap in Hnames as (ndx & Hnx & Hndx).
        exists ndx. split; [|split; [done|]].
        + destruct c; [|done]. cbn [graph with_graph].
          apply graph_add_node_other; [done|]. rewrite <-Hnx. by intros <-.
        + apply (Hbg ndx t); [done| | |done|done]; by rewrite <-Hnx.
      - rewrite Hin in Htn. assert (t = task) as -> by congruence.
        subst c attrs. rewrite Hcond, Hsub. cbn [graph with_graph].
        rewrite Hin. apply graph_add_node_self. }
    assert (nd = nd0) as ->; [|done].
    eapply NoDup_names_eq; [exact Hnd'|done|by auto|done].
  - intros nd Hnd. rewrite Hp'. setoid_rewrite Hshown.
    destruct (Hfrom nd Hnd) as [Hnd0|[_ ?]]; [|by right].
    assert (nd ∈ nodes (graph (cmd w)) →
            node_name nd ∈ processed w ++ [key] ∧ shown (cmd w) (node_name nd) ∨
            end_point (graph (cmd w')) (node_name nd)) as Hold.
    { intros Hin. destruct (Hbp nd Hin) as [[? ?]|?]; [left|right; by auto].
      split; [set_solver|done]. }
    destruct c eqn:Hc; [|by auto]. cbn [graph with_graph] in Hnd0.
    apply graph_add_node_nodes in Hnd0 as [[? _]|[Hname _]]; [by auto|].
    left. rewrite Hname. split; [set_solver|]. by exists task.
Qed.

Lemma populate_borders_ok d st hz pos_args w :
  populate d st hz pos_args = Ok w → borders_ok w.
Proof.
  intros Hw.
  cut (nodes_ok (cmd w) ∧ drawn_ok w ∧ borders_ok w); [tauto|].
  revert Hw. unfold populate.
  apply (while_to_process_preserves_walk
           (λ w, nodes_ok (cmd w) ∧ drawn_ok w ∧ borders_ok w)).
  - intros w0 q (Hn & [Hde Hdn] & [Hbt Hbg Hbp]).
    split; [done|]. split; by constructor.
  - intros key w0 w' task (Hn & Hd & Hb) Ht Hp Hv. split_and!.
    + by eapply visit_nodes_ok.
    + destruct w0 as [self p q]. simpl in *.
      eapply (visit_drawn_ok self p key q); [|exact Hv].
      destruct Hd as [Hde Hdn]. by split.
    + by eapply visit_borders_ok.
  - simpl. split_and!.
    + split; unfold node_names; simpl.
      * destruct hz; constructor.
      * intros n Hn. by destruct hz; apply elem_of_nil in Hn.
      * intros e He. by destruct hz; apply elem_of_nil in He.
    + split; simpl.
      * intros A B. unfold relationship. set_solver.
      * by intros x ?%elem_of_nil.
    + split; simpl.
      * intros nd p' Hnd. by destruct hz; apply elem_of_nil in Hnd.
      * intros nd t Hnd. by destruct hz; apply elem_of_nil in Hnd.
      * intros nd Hnd. by destruct hz; apply elem_of_nil in Hnd.
Qed.

Lemma populate_node_names d st hz pos_args w n :
  populate d st hz pos_args = Ok w →
  n ∈ node_names (graph (cmd w)) ↔
  (n ∈ processed w ∧ shown (cmd w) n) ∨ end_point (graph (cmd w)) n.
Proof.
  intros Hw.
  pose proof (populate_nodes_ok _ _ _ _ _ Hw) as [_ _ Hends].
  pose proof (populate_drawn_ok _ _ _ _ _ Hw) as [_ Hdn].
  pose proof (populate_borders_ok _ _ _ _ _ Hw) as [_ _ Hbp].
  split.
  - intros (nd & -> & Hnd)%list_elem_of_fmap. by apply Hbp.
  - intros [[Hp Hsh]|(e & He & Hn)]; [by apply Hdn|].
    destruct (Hends e He). by destruct Hn as [-> | ->].
Qed.

(** X6: after a run the nodes of the graph are the processed tasks that
    are shown (top-level, or any task when sub-tasks are shown) together
    with the end points of the edges, and nothing else. *)
Theorem nodes_are_shown_tasks_and_end_points :
  ∀ d subtasks horizontal pos_args w,
    populate d subtasks horizontal pos_args = Ok w →
    ∀ n, n ∈ node_names (graph (cmd w)) ↔
         (n ∈ processed w ∧
          ∃ t, tasks_get d n = Some t ∧
               negb (truthy (subtask_of t)) || subtasks = true) ∨
         end_point (graph (cmd w)) n.
Proof.
  intros d st hz pos_args w Hw n.
  pose proof (populate_frame _ _ _ _ _ Hw) as [Ht Hs].
  rewrite (populate_node_names _ _ _ _ _ n Hw).
  unfold shown. by rewrite Ht, Hs.
Qed.

(** X7: the double border marks the processed groups: a node has the
    attribute [peripheries], with the value [2], exactly when it is a
    processed task that is shown and has sub-tasks; every other node has
    no such attribute.  So a group that the traversal meets only as the
    parent of a collapsed sub-task, and never processes, is drawn with a
    single border. *)
Theorem double_border_marks_processed_groups :
  (∀ d subtasks horizontal pos_args w,
     populate d subtasks horizontal pos_args = Ok w →
     ∀ nd, nd ∈ nodes (graph (cmd w)) →
       (attr_peripheries nd = Some "2" ∨ attr_peripheries nd = None) ∧
       (attr_peripheries nd = Some "2" ↔
        node_name nd ∈ processed w ∧
        ∃ t, tasks_get d (node_name nd) = Some t ∧ has_subtask t = true ∧
             negb (truthy (subtask_of t)) || subtasks = true)) ∧
  (∃ w, populate grouped false false (Some ["pkg:a"]) = Ok w ∧
        nodes (graph (cmd w)) =
          [{| node_name := "pkg"; attr_peripheries := None |};
           {| node_name := "gen"; attr_peripheries := None |}]).
Proof.
  split; [|eexists; vm_compute; done].
  intros d st hz pos_args w Hw nd Hnd.
  pose proof (populate_frame _ _ _ _ _ Hw) as [Ht Hs].
  pose proof (populate_borders_ok _ _ _ _ _ Hw) as [Hbt Hbg _].
  rewrite Ht, Hs in *. split.
  - destruct (attr_peripheries nd) as [p|] eqn:Hp; [left|by right].
    destruct (Hbt nd p Hnd Hp) as [-> _]. done.
  - split.
    + intros Hp. destruct (Hbt nd "2" Hnd Hp) as (_ & ? & ?). done.
    + intros (Hin & t & Htn & Hsub & Hc). by eapply Hbg.
Qed.

(** X8: with sub-tasks shown the graph is the dependency graph of the
    processed tasks: its nodes are the processed tasks, and there is an
    edge from [x] to [y], and one only, exactly when [y] is another task
    that is a setup task or a task dependency of the processed task
    [x]. *)
Theorem shown_subtasks_give_the_task_graph :
  ∀ d horizontal pos_args w,
    populate d true horizontal pos_args = Ok w →
    (∀ n, n ∈ node_names (graph (cmd w)) ↔ n ∈ processed w) ∧
    (∀ x y, (x, y) ∈ key_of <$> edges (graph (cmd w)) ↔
            x ≠ y ∧ relationship d (processed w) x y) ∧
    (∀ x y, x ≠ y → relationship d (processed w) x y →
            edges_between (graph (cmd w)) x y = 1).
Proof.
  intros d hz pos_args w Hw.
  pose proof (populate_frame _ _ _ _ _ Hw) as [Ht Hs].
  pose proof (populate_edges_ok _ _ _ _ _ Hw) as Hedges.
  pose proof (populate_drawn_ok _ _ _ _ _ Hw) as [Hde _].
  pose proof (populate_walk_ok _ _ _ _ _ Hw) as Hwalk.
  assert (to_process w = []) as Hq.
  { unfold populate in Hw. by eapply while_to_process_empties. }
  assert (∀ x n, node (cmd w) x = Ok n ↔ n = x) as Hnode.
  { intros x n. unfold node. rewrite Hs. naive_solver. }
  assert (∀ x y, (x, y) ∈ _edges (cmd w) ↔
                 x ≠ y ∧ relationship d (processed w) x y) as Hkeys.
  { intros x y. rewrite Hde, Ht. setoid_rewrite Hnode. naive_solver. }
  split_and!.
  - intros n. rewrite (populate_node_names _ _ _ _ _ n Hw). split.
    + intros [[? _]|(e & He & Hn)]; [done|].
      assert ((edge_source e, edge_sink e) ∈ _edges (cmd w)) as Hin.
      { rewrite (seen_keys _ Hedges). by apply (list_elem_of_fmap_2 key_of). }
      apply Hkeys in Hin as (_ & Hx & t & Htx & Hy).
      destruct Hn as [-> | ->]; [done|].
      pose proof (walk_closed _ _ _ Hwalk _ _ _ Hx Htx Hy) as Hin.
      by rewrite Hq, app_nil_r in Hin.
    + intros Hn. left. split; [done|].
      apply (walk_tasks _ _ _ Hwalk), tasks_get_is_Some in Hn as [t Hn].
      exists t. rewrite Ht, Hs. split; [done|]. apply orb_true_r.
  - intros x y. by rewrite <-(seen_keys _ Hedges).
  - intros x y Hne Hrel. apply edges_between_seen; [done|]. by apply Hkeys.
Qed.

Lemma reachable_without_deps d sd x :
  (∀ t, t ∈ d → deps t = []) → reachable d sd x → x ∈ sd.
Proof.
  intros Hd. induction 1 as [|x t y _ _ Ht Hy]; [done|].
  apply tasks_get_elem_of, Hd in Ht. rewrite Ht in Hy.
  by apply elem_of_nil in Hy.
Qed.

(** X9: on a registry whose tasks have no setup task and no task
    dependency a run from roots that are tasks (or from the whole
    registry) succeeds, processes the seeds and nothing else, draws no
    edge, and draws as nodes the seeds that are shown, each once. *)
Theorem tasks_without_dependencies_give_nodes_only :
  ∀ d subtasks horizontal pos_args,
    (∀ t, t ∈ d → deps t = []) →
    (∀ x, x ∈ seeds d pos_args → x ∈ keys d) →
    ∃ w,
      populate d subtasks horizontal pos_args = Ok w ∧
      edges (graph (cmd w)) = [] ∧
      (∀ x, x ∈ processed w ↔ x ∈ seeds d pos_args) ∧
      NoDup (node_names (graph (cmd w))) ∧
      (∀ n, n ∈ node_names (graph (cmd w)) ↔
            n ∈ seeds d pos_args ∧
            ∃ t, tasks_get d n = Some t ∧
                 negb (truthy (subtask_of t)) || subtasks = true).
Proof.
  intros d st hz pos_args Hd Hseeds.
  destruct (populate_succeeds d st hz pos_args) as [w Hw]; [|done|].
  { intros x t y Ht Hy. apply tasks_get_elem_of, Hd in Ht. rewrite Ht in Hy.
    by apply elem_of_nil in Hy. }
  exists w. split; [done|].
  pose proof (populate_frame _ _ _ _ _ Hw) as [Ht _].
  pose proof (populate_walk_ok _ _ _ _ _ Hw) as Hwalk.
  pose proof (populate_nodes_ok _ _ _ _ _ Hw) as [Hnd _ _].
  assert (to_process w = []) as Hq.
  { unfold populate in Hw. by eapply while_to_process_empties. }
  assert (edges (graph (cmd w)) = []) as He.
  { destruct (edges (graph (cmd w))) as [|e es] eqn:E; [done|].
    destruct (populate_arrows_ok _ _ _ _ _ Hw e)
      as (x & y & (_ & t & Htx & Hkind) & _); [rewrite E; left|].
    rewrite Ht in Htx. apply tasks_get_elem_of, Hd in Htx.
    unfold deps in Htx. apply app_eq_nil in Htx as [Hs Hdp].
    rewrite Hs, Hdp in Hkind. set_solver. }
  assert (∀ x, x ∈ processed w ↔ x ∈ seeds d pos_args) as Hp.
  { intros x. rewrite (walk_ok_finished _ _ _ _ Hwalk Hq). split.
    - by apply reachable_without_deps.
    - by apply reachable_seed. }
  split_and!; try done.
  pose proof (populate_frame _ _ _ _ _ Hw) as [_ Hs].
  intros n. rewrite (populate_node_names _ _ _ _ _ n Hw).
  unfold shown. rewrite Ht, Hs, Hp. split; [|by left].
  intros [?|(e & Hin & _)]; [done|]. rewrite He in Hin.
  by apply elem_of_nil in Hin.
Qed.

(** ** The destination *)

(** X10: an outfile that is not the empty string is the destination as it
    is given, whatever the roots are, also for [pos_args = None]; when the
    traversal succeeds the run prints it and then writes to it, or, when
    it cannot be written, raises the error of the write after the line is
    printed.  The empty string counts as no outfile. *)
Theorem explicit_outfile_is_used_as_given :
  ∀ writable d subtasks reverse horizontal pos_args (outfile : string),
    outfile ≠ "" →
    destination (Some outfile) pos_args = Ok outfile ∧
    _execute writable d subtasks reverse horizontal (Some outfile) pos_args =
      match populate d subtasks horizontal pos_args with
      | Ok w =>
          {| stdout := ["Generated file: " +:+ outfile];
             outcome :=
               if writable outfile
               then Ok (cmd w,
                        {| printed := "Generated file: " +:+ outfile;
                           written_to := outfile;
                           written :=
                             if reverse then graph_reverse (graph (cmd w))
                             else graph (cmd w) |})
               else Raise (OSError outfile) |}
      | Raise e => {| stdout := []; outcome := Raise e |}
      | OutOfFuel => {| stdout := []; outcome := OutOfFuel |}
      end ∧
    _execute writable d subtasks reverse horizontal (Some "") pos_args =
      _execute writable d subtasks reverse horizontal None pos_args.
Proof.
  intros writable d st rv hz pos_args outfile Ho.
  assert (destination (Some outfile) pos_args = Ok outfile) as Hd.
  { unfold destination. simpl. apply String.eqb_neq in Ho. by rewrite Ho. }
  split; [done|]. split; [|done].
  rewrite _execute_unfold, Hd. done.
Qed.

(** X11: called with [pos_args = None], its default, and without an
    outfile, [_execute] never writes a graph and prints nothing: when the
    traversal of the whole registry succeeds, as it does on a registry
    without dangling identities, [len(pos_args)] raises [TypeError];
    otherwise the [KeyError] of the traversal comes first. *)
Theorem default_pos_args_without_outfile_never_writes :
  ∀ writable d subtasks reverse horizontal outfile,
    truthy outfile = false →
    (∀ r, outcome (_execute writable d subtasks reverse horizontal outfile
                     None) ≠ Ok r) ∧
    stdout (_execute writable d subtasks reverse horizontal outfile None)
      = [] ∧
    (∀ w, populate d subtasks horizontal None = Ok w →
          _execute writable d subtasks reverse horizontal outfile None
            = {| stdout := []; outcome := Raise TypeError |}) ∧
    (consistent d →
     _execute writable d subtasks reverse horizontal outfile None
       = {| stdout := []; outcome := Raise TypeError |}) ∧
    (∀ e, populate d subtasks horizontal None = Raise e →
          _execute writable d subtasks reverse horizontal outfile None
            = {| stdout := []; outcome := Raise e |}).
Proof.
  intros writable d st rv hz outfile Ho.
  assert (destination outfile None = Raise TypeError) as Hd.
  { unfold destination. by rewrite Ho. }
  assert (∀ w, populate d st hz None = Ok w →
               _execute writable d st rv hz outfile None
                 = {| stdout := []; outcome := Raise TypeError |}) as Hok.
  { intros w Hw. by rewrite _execute_unfold, Hw, Hd. }
  split_and!.
  - intros r. rewrite _execute_unfold, Hd.
    by destruct (populate d st hz None).
  - rewrite _execute_unfold, Hd. by destruct (populate d st hz None).
  - done.
  - intros Hc. destruct (populate_succeeds d st hz None Hc) as [w Hw];
      [done|by eauto].
  - intros e He. by rewrite _execute_unfold, He.
Qed.

(** ** A relationship met twice *)



(** ** Nothing beyond the reach of the roots *)

Lemma node_shown self x : shown self x → node self x = Ok x.
Proof.
  intros (t & Ht & Hc). apply node_Ok.
  destruct (subtasks self); [by left|right]. split; [done|].
  exists t. split; [done|]. rewrite orb_false_r in Hc.
  apply negb_true_iff in Hc. by rewrite or_else_falsy.
Qed.

(** X13: a run draws nothing beyond the reach of its roots: every node of
    the graph is what the node resolver gives for an identity that can be
    reached from the seeds, and every edge joins what it gives for two
    such identities, the second a dependency of the first. *)
Theorem nothing_beyond_the_reach_of_the_roots :
  ∀ d subtasks horizontal pos_args w,
    populate d subtasks horizontal pos_args = Ok w →
    (∀ n, n ∈ node_names (graph (cmd w)) →
       ∃ x, reachable d (seeds d pos_args) x ∧ node (cmd w) x = Ok n) ∧
    (∀ e, e ∈ edges (graph (cmd w)) →
       ∃ x t y,
         reachable d (seeds d pos_args) x ∧ tasks_get d x = Some t ∧
         y ∈ deps t ∧ reachable d (seeds d pos_args) y ∧
         node (cmd w) x = Ok (edge_source e) ∧
         node (cmd w) y = Ok (edge_sink e)).
Proof.
  intros d st hz pos_args w Hw.
  pose proof (populate_frame _ _ _ _ _ Hw) as [Ht _].
  pose proof (populate_walk_ok _ _ _ _ _ Hw) as Hwalk.
  assert (to_process w = []) as Hq.
  { unfold populate in Hw. by eapply while_to_process_empties. }
  assert (∀ x, x ∈ processed w → reachable d (seeds d pos_args) x) as Hreach.
  { intros x. by apply walk_ok_finished. }
  assert (∀ e, e ∈ edges (graph (cmd w)) →
            ∃ x t y,
              reachable d (seeds d pos_args) x ∧ tasks_get d x = Some t ∧
              y ∈ deps t ∧ reachable d (seeds d pos_args) y ∧
              node (cmd w) x = Ok (edge_source e) ∧
              node (cmd w) y = Ok (edge_sink e)) as Hedges.
  { intros e He.
    destruct (populate_arrows_ok _ _ _ _ _ Hw e He)
      as (x & y & (Hx & t & Htx & Hkind) & HA & HB).
    rewrite Ht in Htx. exists x, t, y.
    assert (y ∈ deps t) as Hy by (unfold deps; set_solver).
    split_and!; auto. eapply reachable_dep; eauto. }
  split; [|done].
  intros n [[Hp Hsh]|(e & He & Hn)]%(populate_node_names _ _ _ _ _ n Hw).
  - exists n. split; [by auto|by apply node_shown].
  - destruct (Hedges e He) as (x & t & y & Hx & _ & _ & Hy & HA & HB).
    destruct Hn as [-> | ->]; eauto.
Qed.

(** ** The further properties at concrete registries *)

Lemma initial_edges_ok d st :
  edges_ok {| tasks := d; subtasks := st; _edges := []; graph := empty_graph |}.
Proof. split; simpl; [done|constructor|by intros e ?%elem_of_nil]. Qed.

Lemma add_edge_fails_only_on_an_absent_identity_witness :
  ∃ self',
    add_edge {| tasks := grouped; subtasks := false; _edges := [];
                graph := empty_graph |} "pkg:a" "gen" "empty" None = Ok self'.
Proof.
  apply (add_edge_fails_only_on_an_absent_identity
           {| tasks := grouped; subtasks := false; _edges := [];
              graph := empty_graph |} "pkg:a" "gen" "empty" None
           (initial_edges_ok grouped false)).
  right. split; eexists; reflexivity.
Defined.

Lemma run_fails_for_three_reasons_only_witness :
  ∃ k, KeyError "ghost" = KeyError k ∧ tasks_get dangling k = None ∧
       reachable dangling (seeds dangling (Some ["a"])) k.
Proof.
  apply (proj1 run_fails_for_three_reasons_only dangling true false
           (Some ["a"])).
  vm_compute. reflexivity.
Defined.

Lemma arrowhead_tells_the_kind_of_relationship_witness :
  ∃ w e,
    populate grouped false false (Some []) = Ok w ∧
    edges (graph (cmd w)) = [e] ∧
    (attr_arrowhead e = "empty" ∨ attr_arrowhead e = "").
Proof.
  assert (∃ w e, populate grouped false false (Some []) = Ok w ∧
                 edges (graph (cmd w)) = [e]) as (w & e & Hw & He).
  { eexists _, _. split; vm_compute; reflexivity. }
  exists w, e. split; [exact Hw|]. split; [exact He|].
  apply (arrowhead_tells_the_kind_of_relationship grouped false false
           (Some []) w Hw e).
  rewrite He. left.
Defined.

Lemma no_edge_has_an_empty_label_witness :
  ∃ self out,
    outcome (_execute all_writable grouped false false false None (Some []))
      = Ok (self, out) ∧
    ∀ e, e ∈ edges (written out) → label_as_written e ≠ Some "".
Proof.
  assert (∃ p, outcome (_execute all_writable grouped false false false None
                          (Some [])) = Ok p)
    as [[self out] Hrun].
  { eexists. vm_compute. reflexivity. }
  exists self, out. split; [exact Hrun|].
  apply (proj1 no_edge_has_an_empty_label all_writable grouped false false
           false None (Some []) self out Hrun).
  reflexivity.
Defined.

Lemma graph_attributes_are_those_of_the_options_witness :
  ∃ self out,
    outcome (_execute all_writable diamond false true true None (Some ["A"]))
      = Ok (self, out) ∧
    graph_attr (written out) = graph_attr (graph self) ∧
    graph_attr (graph self) = [("rankdir", "LR")].
Proof.
  assert (∃ p, outcome (_execute all_writable diamond false true true None
                          (Some ["A"])) = Ok p)
    as [[self out] Hrun].
  { eexists. vm_compute. reflexivity. }
  exists self, out. split; [exact Hrun|].
  destruct (graph_attributes_are_those_of_the_options all_writable diamond
              false true true
              None (Some ["A"]) self out Hrun) as (Hg & _ & Hw & _).
  split; [exact Hw|exact Hg].
Defined.

Lemma nodes_are_shown_tasks_and_end_points_witness :
  ∃ w, populate grouped false false (Some ["pkg:a"]) = Ok w ∧
       "gen" ∈ node_names (graph (cmd w)).
Proof.
  assert (∃ w, populate grouped false false (Some ["pkg:a"]) = Ok w)
    as [w Hw].
  { eexists. vm_compute. reflexivity. }
  exists w. split; [exact Hw|].
  apply (nodes_are_shown_tasks_and_end_points grouped false false
           (Some ["pkg:a"]) w Hw "gen").
  left. split.
  - injection Hw as <-. vm_compute. apply list_elem_of_In. simpl. tauto.
  - eexists. split; reflexivity.
Defined.

Lemma double_border_marks_processed_groups_witness :
  ∃ w nd,
    populate grouped false false (Some ["pkg"]) = Ok w ∧
    nd ∈ nodes (graph (cmd w)) ∧ node_name nd = "pkg" ∧
    (attr_peripheries nd = Some "2" ∨ attr_peripheries nd = None).
Proof.
  assert (∃ w nd l, populate grouped false false (Some ["pkg"]) = Ok w ∧
                    nodes (graph (cmd w)) = nd :: l ∧ node_name nd = "pkg")
    as (w & nd & l & Hw & Hn & Hname).
  { eexists _, _, _. split; [vm_compute; reflexivity|].
    split; vm_compute; reflexivity. }
  assert (nd ∈ nodes (graph (cmd w))) as Hnd by (rewrite Hn; left).
  exists w, nd. split; [exact Hw|]. split; [exact Hnd|]. split; [exact Hname|].
  apply (proj1 double_border_marks_processed_groups grouped false false
           (Some ["pkg"]) w Hw nd Hnd).
Defined.

Lemma shown_subtasks_give_the_task_graph_witness :
  ∃ w, populate grouped true false (Some ["pkg"]) = Ok w ∧
       ∀ n, n ∈ node_names (graph (cmd w)) ↔ n ∈ processed w.
Proof.
  assert (∃ w, populate grouped true false (Some ["pkg"]) = Ok w) as [w Hw].
  { eexists. vm_compute. reflexivity. }
  exists w. split; [exact Hw|].
  apply (shown_subtasks_give_the_task_graph grouped false (Some ["pkg"]) w Hw).
Defined.

Lemma tasks_without_dependencies_give_nodes_only_witness :
  ∃ w, populate unconnected false false None = Ok w ∧
       edges (graph (cmd w)) = [] ∧
       NoDup (node_names (graph (cmd w))).
Proof.
  destruct (tasks_without_dependencies_give_nodes_only unconnected false false
              None) as (w & Hw & He & _ & Hnd & _).
  - apply Forall_forall, (bool_decide_unpack _). vm_compute. exact I.
  - done.
  - exists w. split; [exact Hw|]. split; [exact He|exact Hnd].
Defined.

Lemma explicit_outfile_is_used_as_given_witness :
  destination (Some "deps.dot") None = Ok "deps.dot".
Proof.
  apply (explicit_outfile_is_used_as_given all_writable [] false false false
           None "deps.dot").
  discriminate.
Defined.

Lemma default_pos_args_without_outfile_never_writes_witness :
  _execute all_writable unconnected false false false None None =
    {| stdout := []; outcome := Raise TypeError |}.
Proof.
  apply (proj1 (proj2 (proj2 (proj2
           (default_pos_args_without_outfile_never_writes
              all_writable unconnected false false false None eq_refl))))).
  apply consistent_Forall, (bool_decide_unpack _). vm_compute. exact I.
Defined.


Lemma nothing_beyond_the_reach_of_the_roots_witness :
  ∃ w, populate grouped false false (Some ["pkg:a"]) = Ok w ∧
       ∀ n, n ∈ node_names (graph (cmd w)) →
         ∃ x, reachable grouped (seeds grouped (Some ["pkg:a"])) x ∧
              node (cmd w) x = Ok n.
Proof.
  assert (∃ w, populate grouped false false (Some ["pkg:a"]) = Ok w)
    as [w Hw].
  { eexists. vm_compute. reflexivity. }
  exists w. split; [exact Hw|].
  apply (nothing_beyond_the_reach_of_the_roots grouped false false
           (Some ["pkg:a"]) w Hw).
Defined.

(** ** Where a label comes from *)

Lemma get_connecting_files_ext self self' x y :
  tasks self' = tasks self →
  get_connecting_files self' x y = get_connecting_files self x y.
Proof. unfold get_connecting_files. by intros ->. Qed.

Lemma add_edge_labelled self src_name sink_name arrowhead label self' :
  add_edge self src_name sink_name arrowhead label = Ok self' →
  ∀ e', e' ∈ edges (graph self') → is_Some (attr_label e') →
    (∃ e, e ∈ edges (graph self) ∧ same_but_label e e' ∧
          is_Some (attr_label e)) ∨
    (truthy label = true ∧
     node self src_name = Ok (edge_source e') ∧
     node self sink_name = Ok (edge_sink e')).
Proof.
  intros (source & sink & Hs & Hk & H)%add_edge_Ok e' He' Hl'.
  destruct H as [[_ ->]|[(_ & _ & _ & ->)|
    [(Hne & Hin & Hl & i & Hi & ->)|(Hne & Hin & ->)]]].
  - left. by exists e'.
  - left. by exists e'.
  - simpl in He'. apply list_elem_of_lookup in He' as [j Hj].
    rewrite list_lookup_alter in Hj. case_decide as Hij; [subst j|].
    + apply find_edge_Some in Hi as (e & He & Hkey). rewrite He in Hj.
      simplify_eq/=. right. unfold key_of in Hkey. simpl.
      split; [done|]. split; congruence.
    + left. exists e'. split; [by eapply list_elem_of_lookup_2|done].
  - cbn [graph] in He'. rewrite graph_add_edge_edges in He'.
    apply elem_of_app in He' as [He'| ->%list_elem_of_singleton].
    + left. by exists e'.
    + right. simpl in *. destruct (truthy label); [|by destruct Hl'].
      by rewrite Hs, Hk.
Qed.

Lemma for_sinks_labelled arrowhead task sinks w w' :
  for_sinks arrowhead task sinks w = Ok w' →
  ∀ e', e' ∈ edges (graph (cmd w')) → is_Some (attr_label e') →
    (∃ e, e ∈ edges (graph (cmd w)) ∧ same_but_label e e' ∧
          is_Some (attr_label e)) ∨
    ∃ y, y ∈ sinks ∧ node (cmd w) (name task) = Ok (edge_source e') ∧
         node (cmd w) y = Ok (edge_sink e') ∧
         get_connecting_files (cmd w) (name task) y ≠ [].
Proof.
  revert w. induction sinks as [|sink_name sinks IH]; intros w; simpl.
  { intros [= <-] e' He' Hl'. left. by exists e'. }
  intros (self & Ha & Hr)%bind_Ok e' He' Hl'.
  pose proof (add_edge_frame _ _ _ _ _ _ Ha) as [Ht Hs].
  destruct (IH _ Hr e' He' Hl')
    as [(e & He & Hsame & Hl)|(y & Hy & Hx & Hyn & Hfiles)]; simpl in *.
  - destruct (add_edge_labelled _ _ _ _ _ _ Ha e He Hl)
      as [(e0 & He0 & Hsame0 & Hl0)|(Htr & Hx & Hyn)].
    + left. exists e0. split; [done|]. split; [|done].
      by eapply same_but_label_trans.
    + right. destruct Hsame as [Hkey _]. unfold key_of in Hkey.
      exists sink_name. split; [set_solver|].
      split; [congruence|]. split; [congruence|].
      intros Hnil. rewrite Hnil in Htr. done.
  - right. exists y. split; [set_solver|].
    rewrite <-!(node_ext (cmd w) self _ Ht Hs).
    by rewrite <-(get_connecting_files_ext (cmd w) self _ _ Ht).
Qed.

Lemma visit_labels_linked key w w' task :
  labels_linked w → tasks_get (tasks (cmd w)) key = Some task →
  key ∉ processed w → visit key w = Ok w' → labels_linked w'.
Proof.
  intros Hok Ht Hp Hv e' He' Hl'.
  pose proof (visit_Ok _ _ _ Hv) as (task' & Hg & _ & Hts & Hss & Hcase).
  destruct Hcase as [[? _]|(_ & Hp' & _)]; [done|]. clear task' Hg.
  destruct (visit_unfold _ _ _ _ Ht Hp Hv) as (Hn & w1 & H1 & H2).
  pose proof (for_sinks_Ok _ _ _ _ _ H1) as (Ht1 & Hs1 & _). simpl in *.
  set (self0 := if negb (truthy (subtask_of task)) || subtasks (cmd w)
                then with_graph (cmd w)
                       (graph_add_node (graph (cmd w)) key
                          (if has_subtask task then Some "2" else None))
                else cmd w) in *.
  assert (tasks self0 = tasks (cmd w) ∧ subtasks self0 = subtasks (cmd w) ∧
          edges (graph self0) = edges (graph (cmd w))) as (Ht0 & Hs0 & He0).
  { subst self0. by destruct (_ || _). }
  assert (∀ x, node (cmd w') x = node (cmd w) x) as Hnode.
  { intros x. by apply node_ext. }
  assert (∀ x y, get_connecting_files (cmd w') x y
                 = get_connecting_files (cmd w) x y) as Hfiles.
  { intros x y. by apply get_connecting_files_ext. }
  rewrite Hts, Hp'. setoid_rewrite Hnode. setoid_rewrite Hfiles.
  assert (∀ y, y ∈ deps task →
            node (cmd w) key = Ok (edge_source e') →
            node (cmd w) y = Ok (edge_sink e') →
            get_connecting_files (cmd w) key y ≠ [] →
            ∃ x y0, relationship (tasks (cmd w)) (processed w ++ [key]) x y0 ∧
                    node (cmd w) x = Ok (edge_source e') ∧
                    node (cmd w) y0 = Ok (edge_sink e') ∧
                    get_connecting_files (cmd w) x y0 ≠ []) as Hnew.
  { intros y Hy HA HB Hf. exists key, y. split; [|done].
    split; [set_solver|]. by exists task. }
  assert (∀ e, e ∈ edges (graph (cmd w)) → same_but_label e e' →
            is_Some (attr_label e) →
            ∃ x y0, relationship (tasks (cmd w)) (processed w ++ [key]) x y0 ∧
                    node (cmd w) x = Ok (edge_source e') ∧
                    node (cmd w) y0 = Ok (edge_sink e') ∧
                    get_connecting_files (cmd w) x y0 ≠ []) as Hold.
  { intros e He [Hkey _] Hl. unfold key_of in Hkey.
    destruct (Hok e He Hl) as (x & y & [Hx Hrel] & HA & HB & Hf).
    exists x, y. split; [split; [set_solver|done]|].
    split; [congruence|]. split; [congruence|done]. }
  destruct (for_sinks_labelled _ _ _ _ _ H2 e' He' Hl')
    as [(e1 & He1 & Hsame1 & Hl1)|(y & Hy & Hx & Hyn & Hf)].
  - destruct (for_sinks_labelled _ _ _ _ _ H1 e1 He1 Hl1)
      as [(e & He & Hsame & Hl)|(y & Hy & Hx & Hyn & Hf)]; simpl in *.
    + rewrite He0 in He. apply (Hold e He); [|done].
      by eapply same_but_label_trans.
    + destruct Hsame1 as [Hkey _]. unfold key_of in Hkey.
      assert (∀ x, node self0 x = node (cmd w) x) as Hnode0.
      { intros x. by apply node_ext. }
      rewrite Hnode0 in Hx. rewrite Hnode0 in Hyn.
      rewrite (get_connecting_files_ext (cmd w) self0 _ _ Ht0), Hn in Hf.
      rewrite Hn in Hx.
      apply (Hnew y); [unfold deps; set_solver|congruence|congruence|done].
  - assert (tasks (cmd w1) = tasks (cmd w)) as Ht1' by congruence.
    assert (subtasks (cmd w1) = subtasks (cmd w)) as Hs1' by congruence.
    assert (∀ x, node (cmd w1) x = node (cmd w) x) as Hnode1.
    { intros x. by apply node_ext. }
    rewrite Hnode1 in Hx. rewrite Hnode1 in Hyn.
    rewrite (get_connecting_files_ext (cmd w) (cmd w1) _ _ Ht1'), Hn in Hf.
    rewrite Hn in Hx.
    apply (Hnew y); [unfold deps; set_solver|done|done|done].
Qed.

Lemma populate_labels_linked d st hz pos_args w :
  populate d st hz pos_args = Ok w → labels_linked w.
Proof.
  unfold populate. apply (while_to_process_preserves_walk labels_linked).
  - done.
  - intros key w0 w' task. apply visit_labels_linked.
  - intros e. simpl. by destruct hz; intros ?%elem_of_nil.
Qed.

(** X14: a label comes from a file link: every edge of the built graph
    that carries a label stands for a relationship of a processed task,
    resolved to the end points of the edge, whose connecting files are not
    empty.  Between tasks none of whose relationships share a file no edge
    is labelled. *)
Theorem labelled_edge_has_connecting_files :
  ∀ d subtasks horizontal pos_args w,
    populate d subtasks horizontal pos_args = Ok w →
    ∀ e, e ∈ edges (graph (cmd w)) → is_Some (attr_label e) →
      ∃ x y, relationship d (processed w) x y ∧
             node (cmd w) x = Ok (edge_source e) ∧
             node (cmd w) y = Ok (edge_sink e) ∧
             get_connecting_files (cmd w) x y ≠ [].
Proof.
  intros d st hz pos_args w Hw e He Hl.
  pose proof (populate_frame _ _ _ _ _ Hw) as [Ht _].
  destruct (populate_labels_linked _ _ _ _ _ Hw e He Hl)
    as (x & y & Hrel & HA & HB & Hf).
  rewrite Ht in Hrel. eauto 10.
Qed.

Lemma labelled_edge_has_connecting_files_witness :
  ∃ w e,
    populate grouped false false (Some []) = Ok w ∧
    edges (graph (cmd w)) = [e] ∧
    ∃ x y, relationship grouped (processed w) x y ∧
           node (cmd w) x = Ok (edge_source e) ∧
           node (cmd w) y = Ok (edge_sink e) ∧
           get_connecting_files (cmd w) x y ≠ [].
Proof.
  assert (∃ w e, populate grouped false false (Some []) = Ok w ∧
                 edges (graph (cmd w)) = [e] ∧ is_Some (attr_label e))
    as (w & e & Hw & He & Hl).
  { eexists _, _. split; [vm_compute; reflexivity|].
    split; [vm_compute; reflexivity|]. by eexists. }
  exists w, e. split; [exact Hw|]. split; [exact He|].
  apply (labelled_edge_has_connecting_files grouped false false (Some []) w Hw
           e); [rewrite He; left|exact Hl].
Defined.

(** ** The resolved identity is stable *)

(** X15: when grouping has one level, what the node resolver gives for a
    task, if it is itself a task of the registry, resolves to itself:
    resolving twice is resolving once.  Without that the two differ: in
    [nested] the sub-task [s] resolves to [p] and [p] to [q]. *)
Theorem resolved_identity_is_stable :
  (∀ self x n,
     one_level (tasks self) →
     node self x = Ok n → n ∈ keys (tasks self) → node self n = Ok n) ∧
  (node {| tasks := nested; subtasks := false; _edges := [];
           graph := empty_graph |} "s" = Ok "p" ∧
   node {| tasks := nested; subtasks := false; _edges := [];
           graph := empty_graph |} "p" = Ok "q").
Proof.
  split; [|done]. intros self x n Hone Hx [tn Hn]%tasks_get_is_Some.
  apply node_Ok. apply node_Ok in Hx as [[? _]|(Hs & t & Ht & ->)]; [by left|].
  right. split; [done|].
  destruct (truthy (subtask_of t)) eqn:Htr.
  - exists tn. split; [done|].
    destruct (truthy (subtask_of tn)) eqn:Hsub.
    + destruct (Hone x t Ht Htr). by exists tn.
    + by rewrite (or_else_falsy _ _ Hsub).
  - rewrite (or_else_falsy _ _ Htr) in *. exists t. split; [done|].
    by rewrite (or_else_falsy _ _ Htr).
Qed.

Lemma grouped_one_level : one_level grouped.
Proof.
  intros x t Hx Htr (tp & Hp & Hsub).
  unfold grouped in Hx. simpl in Hx.
  repeat (case_match; simplify_eq/=); done.
Qed.

Lemma resolved_identity_is_stable_witness :
  node {| tasks := grouped; subtasks := false; _edges := [];
          graph := empty_graph |} "pkg" = Ok "pkg".
Proof.
  apply (proj1 resolved_identity_is_stable
           {| tasks := grouped; subtasks := false; _edges := [];
              graph := empty_graph |} "pkg:a" "pkg" grouped_one_level eq_refl).
  apply (bool_decide_unpack _). vm_compute. exact I.
Defined.
